(** * uncensortype: score mapping, glyph path distortion and text layout

    A shallow embedding of [script.js].  JavaScript numbers are modelled
    as exact rationals ([Q]); values that the code obtains from
    [Math.round] or [parseInt] are integers ([Z]), and a [parseInt] that
    yields [NaN] is [None].  Rounding error of IEEE doubles is outside
    the model.  [Math.random] is a stream of draws indexed by the number
    of calls made so far. *)

From Stdlib Require Import QArith Qround Qabs Qminmax ZArith Lia Lqa List Sorted Ascii String Bool.
From Stdlib Require Import Decimal DecimalString Permutation.
From stdpp Require Import gmap strings list fin_maps.

Local Open Scope Q_scope.

(** ** Configuration constants *)

Definition MAX_EXTRA_POINTS : Q := 10.
Definition MAX_BLUR_PX : Q := 4.

(** ** JavaScript primitives *)

(** [Math.round]: the nearest integer, ties towards +infinity. *)
Definition Math_round (v : Q) : Z := Qfloor (v + (1 # 2)).

Definition Math_max (a b : Q) : Q := Qmax a b.
Definition Math_min (a b : Q) : Q := Qmin a b.

(** ** Visual mapping logic *)

Definition scoreToDistortion (score : Q) : Q :=
  let clamped := Math_max 0 (Math_min 1 score) in
  1 - clamped.

Definition lerp (a b t : Q) : Q := a + (b - a) * t.

Record Color := mkColor { r : Z; g : Z; b : Z }.

Definition scoreToColor (score : Q) : Color :=
  let s := Math_max 0 (Math_min 1 score) in
  let r := lerp 220 20 s in
  let g := lerp 40 210 s in
  let b := lerp 40 120 s in
  {| r := Math_round r; g := Math_round g; b := Math_round b |}.

(** Entries of [dataByCountry]: one [{year, score}] object per data row. *)
Record Entry := mkEntry { year : Z; score : Q }.

(** [d.year === year] and [d.year <= year] against a requested year that
    may be [NaN] ([None]): every comparison with [NaN] is false. *)
Definition year_is (d : Entry) (yr : option Z) : bool :=
  match yr with Some v => (year d =? v)%Z | None => false end.

Definition year_le (d : Entry) (yr : option Z) : bool :=
  match yr with Some v => (year d <=? v)%Z | None => false end.

(** [getCurrentScore]; the global [dataByCountry] is an argument and the
    [null] result is [None]. *)
Definition getCurrentScore (dataByCountry : gmap string (list Entry))
    (country : string) (yr : option Z) : option Q :=
  match dataByCountry !! country with
  | None => None
  | Some [] => None
  | Some (first :: rest) =>
      let arr := first :: rest in
      match List.find (fun d => year_is d yr) arr with
      | Some exact => Some (score exact)
      | None =>
          let best :=
            fold_left
              (fun best d =>
                 if year_le d yr && (year best <=? year d)%Z then d else best)
              arr first in
          Some (score best)
      end
  end.

(** ** Data loading

    [parseCSV] from the point where a line has been split and its columns
    read: [parseInt] and [parseFloat] results are given, [None] for
    [NaN], and a missing entity column is the empty string. *)
Record Row := mkRow { rowCountry : string; rowYear : option Z; rowScore : option Q }.

Definition addRow (data : gmap string (list Entry)) (row : Row)
    : gmap string (list Entry) :=
  match rowCountry row, rowYear row, rowScore row with
  | EmptyString, _, _ => data
  | _, None, _ => data
  | _, _, None => data
  | country, Some yr, Some sc =>
      let data1 :=
        match data !! country with
        | Some _ => data
        | None => <[country := []]> data
        end in
      <[country := default [] (data1 !! country) ++ [mkEntry yr sc]]> data1
  end.

(** [arr.sort((a, b) => a.year - b.year)]: the stable ascending sort. *)
Fixpoint insertByYear (e : Entry) (arr : list Entry) : list Entry :=
  match arr with
  | [] => [e]
  | d :: arr' =>
      if (year e <=? year d)%Z then e :: d :: arr' else d :: insertByYear e arr'
  end.

Definition sortByYear (arr : list Entry) : list Entry :=
  fold_right insertByYear [] arr.

Definition parseCSV (rows : list Row) (dataByCountry : gmap string (list Entry))
    : gmap string (list Entry) :=
  sortByYear <$> fold_left addRow rows dataByCountry.

(** ** Typographic distortion *)

(** Path commands of a glyph outline, tagged by their [type] field. *)
Inductive PathCommand :=
| MoveTo (x y : Q)                   (* type "M" *)
| LineTo (x y : Q)                   (* type "L" *)
| QuadraticTo (x1 y1 x y : Q)        (* type "Q" *)
| CubicTo (x1 y1 x2 y2 x y : Q)      (* type "C" *)
| ClosePath.                         (* type "Z" *)

Record Path := mkPath { commands : list PathCommand }.

(** The n-th call of [Math.random] returns [rnd n]. *)
Definition RandomSource := nat -> Q.

(** State of the walk over [path.commands]: the array being built, the
    cursor, and the number of [Math.random] calls made so far. *)
Record Walk := mkWalk {
  newCommands : list PathCommand;
  prevX : Q;
  prevY : Q;
  calls : nat
}.

(** The loop [for (let i = 1; i <= extraPoints; i++)], entered at index
    [i] with [count] iterations left.  [factor] is 6 in the line branch
    and 10 in the curve branch, which are otherwise the same code. *)
Fixpoint subdivide (count : nat) (i : Z) (extraPoints : Z)
    (distortionLevel factor targetX targetY : Q) (rnd : RandomSource)
    (w : Walk) : Walk :=
  match count with
  | O => w
  | S count' =>
      let t := inject_Z i / inject_Z (extraPoints + 1) in
      let baseX := prevX w + (targetX - prevX w) * t in
      let baseY := prevY w + (targetY - prevY w) * t in
      let jitter := distortionLevel * factor in
      let jx := (rnd (calls w) - (1 # 2)) * jitter in
      let jy := (rnd (S (calls w)) - (1 # 2)) * jitter in
      subdivide count' (i + 1) extraPoints distortionLevel factor
        targetX targetY rnd
        {| newCommands := newCommands w ++ [LineTo (baseX + jx) (baseY + jy)];
           prevX := prevX w;
           prevY := prevY w;
           calls := S (S (calls w)) |}
  end.

(** A subdivided segment: the interior points, the command itself, then
    the cursor moves to the target. *)
Definition segment (cmd : PathCommand) (extraPoints : Z)
    (distortionLevel factor targetX targetY : Q) (rnd : RandomSource)
    (w : Walk) : Walk :=
  let w' := subdivide (Z.to_nat extraPoints) 1 extraPoints distortionLevel
              factor targetX targetY rnd w in
  {| newCommands := newCommands w' ++ [cmd];
     prevX := targetX;
     prevY := targetY;
     calls := calls w' |}.

(** One iteration of [for (const cmd of path.commands)]. *)
Definition distortStep (extraPoints : Z) (distortionLevel : Q)
    (rnd : RandomSource) (w : Walk) (cmd : PathCommand) : Walk :=
  match cmd with
  | MoveTo x y =>
      {| newCommands := newCommands w ++ [cmd];
         prevX := x; prevY := y; calls := calls w |}
  | LineTo x y => segment cmd extraPoints distortionLevel 6 x y rnd w
  | QuadraticTo _ _ x y => segment cmd extraPoints distortionLevel 10 x y rnd w
  | CubicTo _ _ _ _ x y => segment cmd extraPoints distortionLevel 10 x y rnd w
  | ClosePath =>
      {| newCommands := newCommands w ++ [cmd];
         prevX := prevX w; prevY := prevY w; calls := calls w |}
  end.

(** [distortPath] updates [path.commands] in place; here it returns the
    path after the call and the number of [Math.random] calls made. *)
Definition distortPath (path : Path) (distortionLevel : Q)
    (rnd : RandomSource) (n : nat) : Path * nat :=
  if Qle_bool distortionLevel 0 then (path, n)
  else
    let extraPoints := Math_round (distortionLevel * MAX_EXTRA_POINTS) in
    if (extraPoints <=? 0)%Z then (path, n)
    else
      let w := fold_left (distortStep extraPoints distortionLevel rnd)
                 (commands path)
                 {| newCommands := []; prevX := 0; prevY := 0; calls := n |} in
      ({| commands := newCommands w |}, calls w).

(** ** Text layout *)

Record Glyph := mkGlyph {
  advanceWidth : Q;
  getPath : Q -> Q -> Q -> Path
}.

Record Font := mkFont {
  charToGlyph : ascii -> Glyph;
  unitsPerEm : Q
}.

Definition measureLineWidth (str : string) (font : Font)
    (scale letterSpacing : Q) : Q :=
  fold_left
    (fun width ch =>
       let glyph := charToGlyph font ch in
       width + (advanceWidth glyph * scale + letterSpacing))
    (list_ascii_of_string str) 0.

(** Characters are 8-bit; [\s] is taken over the ASCII white space. *)
Definition isSpace (c : ascii) : bool :=
  match nat_of_ascii c with
  | 9%nat | 10%nat | 11%nat | 12%nat | 13%nat | 32%nat => true
  | _ => false
  end.

(** [text.split(/\s+/)]: [word] is the piece being read, [inRun] tells
    that the previous character was white space.  A separator at either
    end leaves an empty piece there, as in JavaScript. *)
Fixpoint splitRuns (text : string) (word : string) (inRun : bool) : list string :=
  match text with
  | EmptyString => [word]
  | String c rest =>
      if isSpace c then
        if inRun then splitRuns rest word true
        else word :: splitRuns rest EmptyString true
      else splitRuns rest (word +:+ String c EmptyString) false
  end.

Definition split_ws (text : string) : list string :=
  splitRuns text EmptyString false.

(** Truthiness of a string. *)
Definition truthy (s : string) : bool :=
  match s with EmptyString => false | String _ _ => true end.

(** One iteration of [for (const word of words)] over the pair of
    [lines] and [currentLine]. *)
Definition layoutStep (maxWidth : Q) (font : Font) (scale letterSpacing : Q)
    (st : list string * string) (word : string) : list string * string :=
  let '(lines, currentLine) := st in
  let testLine :=
    if truthy currentLine then currentLine +:+ " " +:+ word else word in
  let testWidth := measureLineWidth testLine font scale letterSpacing in
  if negb (Qle_bool testWidth maxWidth) && truthy currentLine
  then (lines ++ [currentLine], word)
  else (lines, testLine).

Definition layoutTextIntoLines (text : string) (maxWidth : Q) (font : Font)
    (scale letterSpacing : Q) : list string :=
  let words := split_ws text in
  let '(lines, currentLine) :=
    fold_left (layoutStep maxWidth font scale letterSpacing) words
      ([], EmptyString) in
  if truthy currentLine then lines ++ [currentLine] else lines.

(** ** Drawing *)

(** [String.prototype.trim], over the same white space. *)
Fixpoint trimStart (s : string) : string :=
  match s with
  | EmptyString => EmptyString
  | String c rest => if isSpace c then trimStart rest else s
  end.

Fixpoint trimEnd (s : string) : string :=
  match s with
  | EmptyString => EmptyString
  | String c rest =>
      let rest' := trimEnd rest in
      if isSpace c && negb (truthy rest') then EmptyString else String c rest'
  end.

Definition trim (s : string) : string := trimEnd (trimStart s).

(** [parseInt(s, 10)]: leading white space, an optional sign, then the
    longest run of decimal digits; [None] is [NaN]. *)
Definition digitOf (c : ascii) : option Z :=
  let k := nat_of_ascii c in
  if (48 <=? k)%nat && (k <=? 57)%nat then Some (Z.of_nat k - 48)%Z else None.

Fixpoint parseDigits (s : string) (acc : option Z) : option Z :=
  match s with
  | EmptyString => acc
  | String c rest =>
      match digitOf c with
      | Some d => parseDigits rest (Some (10 * default 0 acc + d))%Z
      | None => acc
      end
  end.

Definition parseInt (s : string) : option Z :=
  match trimStart s with
  | String "-"%char rest => Z.opp <$> parseDigits rest None
  | String "+"%char rest => parseDigits rest None
  | rest => parseDigits rest None
  end.

(** What [drawOutput] reads: the module's globals and the DOM values. *)
Record Page := mkPage {
  font : option Font;
  dataByCountry : gmap string (list Entry);
  currentCountry : option string;
  currentYear : option Z;
  textInput_value : string;
  countrySelect_value : string;
  yearSlider_value : string;
  fontSizeInput_value : string;
  letterSpacingInput_value : string;
  lineHeightInput_value : string;
  canvas_width : Z;
  canvas_height : Z
}.

(** What [drawOutput] writes, in the order of the writes. *)
Inductive Effect :=
| SetCurrentScore (s : Q)            (* currentScore = clampedScore *)
| PanelCountry (c : string)          (* panelCountry.textContent *)
| PanelYear (y : option Z)           (* panelYear.textContent *)
| PanelScore (s : Q)                 (* panelScore.textContent *)
| Background (c : Color)             (* canvasWrapper.style.background *)
| Blur (px : Q)                      (* canvas.style.filter *)
| ClearRect (x y w h : Q)            (* ctx.clearRect *)
| FillStyle (s : string)             (* ctx.fillStyle *)
| Save                               (* ctx.save *)
| Draw (p : Path)                    (* glyphPath.draw(ctx) *)
| Restore.                           (* ctx.restore *)

(** One iteration of [for (const ch of line)]: the pen position, the
    writes so far and the [Math.random] calls so far. *)
Definition glyphStep (f : Font) (fontSize scale letterSpacing : Q)
    (distortionLevel y : Q) (rnd : RandomSource)
    (st : Q * list Effect * nat) (ch : ascii) : Q * list Effect * nat :=
  let '(x, out, n) := st in
  let glyph := charToGlyph f ch in
  let glyphPath := getPath glyph x y fontSize in
  let '(glyphPath', n') := distortPath glyphPath distortionLevel rnd n in
  (x + (advanceWidth glyph * scale + letterSpacing),
   out ++ [Draw glyphPath'], n').

(** One iteration of [for (const line of lines)]. *)
Definition lineStep (f : Font) (width : Q)
    (fontSize scale letterSpacing lineHeightFactor distortionLevel : Q)
    (rnd : RandomSource)
    (st : Q * list Effect * nat) (line : string) : Q * list Effect * nat :=
  let '(y, out, n) := st in
  let lineWidth := measureLineWidth line f scale letterSpacing in
  let x := (width - lineWidth) / 2 in
  let '(_, out', n') :=
    fold_left
      (glyphStep f fontSize scale letterSpacing distortionLevel y rnd)
      (list_ascii_of_string line) (x, out, n) in
  (y + fontSize * lineHeightFactor, out', n').

Definition drawOutput (pg : Page) (rnd : RandomSource) (n : nat)
    : list Effect * nat :=
  let text :=
    let v := trim (textInput_value pg) in if truthy v then v else "font"%string in
  let country :=
    match currentCountry pg with
    | Some c => if truthy c then c else countrySelect_value pg
    | None => countrySelect_value pg
    end in
  let year :=
    match currentYear pg with
    | Some v => if (v =? 0)%Z then parseInt (yearSlider_value pg) else Some v
    | None => parseInt (yearSlider_value pg)
    end in
  if negb (truthy country) then ([], n)
  else
    let rawScore := getCurrentScore (dataByCountry pg) country year in
    let score := match rawScore with Some v => v | None => 1 # 2 end in
    let clampedScore := Math_max 0 (Math_min 1 score) in
    let distortionLevel := scoreToDistortion clampedScore in
    let color := scoreToColor clampedScore in
    let blurPx := distortionLevel * MAX_BLUR_PX in
    let out :=
      [ SetCurrentScore clampedScore;
        PanelCountry country; PanelYear year; PanelScore clampedScore;
        Background color;
        Blur blurPx ] in
    match font pg with
    | None => (out, n)
    | Some f =>
        let width := inject_Z (canvas_width pg) in
        let height := inject_Z (canvas_height pg) in
        let fontSize :=
          match parseInt (fontSizeInput_value pg) with
          | Some v => if (v =? 0)%Z then 120 else inject_Z v
          | None => 120
          end in
        let letterSpacing :=
          match parseInt (letterSpacingInput_value pg) with
          | Some v => inject_Z v
          | None => 0
          end in
        let lineHeightFactor :=
          match parseInt (lineHeightInput_value pg) with
          | Some v => if (v =? 0)%Z then 12 # 10 else inject_Z v / 100
          | None => 12 # 10
          end in
        let unitsPerEm :=
          if Qeq_bool (unitsPerEm f) 0 then 1000 else unitsPerEm f in
        let scale := fontSize / unitsPerEm in
        let maxLineWidth := width * (8 # 10) in
        let lines := layoutTextIntoLines text maxLineWidth f scale letterSpacing in
        let totalHeight :=
          inject_Z (Z.of_nat (length lines)) * fontSize * lineHeightFactor in
        let y := (height - totalHeight) / 2 + fontSize in
        let out1 := out ++ [ClearRect 0 0 width height; FillStyle "#000000"; Save] in
        let '(_, out2, n') :=
          fold_left
            (lineStep f width fontSize scale letterSpacing lineHeightFactor
               distortionLevel rnd)
            lines (y, out1, n) in
        (out2 ++ [Restore], n')
    end.

(** ** Year slider and event handlers *)

(** [String(n)] for an integer [n]: its decimal digits, with a minus
    sign when negative.  This is what JavaScript prints for integers
    below 10^21 in magnitude, years among them; from there on it prints
    an exponent, which is outside the model. *)
Definition String_of_Z (z : Z) : string := NilZero.string_of_int (Z.to_int z).

(** What [updateYearSliderForCountry] and the slider handler write to the
    year slider and its labels, in the order of the writes. *)
Inductive SliderEffect :=
| SliderMin (v : Z)                  (* yearSlider.min *)
| SliderMax (v : Z)                  (* yearSlider.max *)
| SliderValue (v : Z)                (* yearSlider.value *)
| YearMinLabel (s : string)          (* yearMinLabel.textContent *)
| YearMaxLabel (s : string)          (* yearMaxLabel.textContent *)
| YearValueLabel (s : string).       (* yearValueLabel.textContent *)

(** Assignments to the globals [currentCountry] and [currentYear]; the
    slider's value goes with the year when the code sets it. *)
Definition setCurrentCountry (pg : Page) (c : option string) : Page :=
  mkPage (font pg) (dataByCountry pg) c (currentYear pg)
    (textInput_value pg) (countrySelect_value pg) (yearSlider_value pg)
    (fontSizeInput_value pg) (letterSpacingInput_value pg)
    (lineHeightInput_value pg) (canvas_width pg) (canvas_height pg).

Definition setCurrentYear (pg : Page) (y : option Z) (sliderValue : string) : Page :=
  mkPage (font pg) (dataByCountry pg) (currentCountry pg) y
    (textInput_value pg) (countrySelect_value pg) sliderValue
    (fontSizeInput_value pg) (letterSpacingInput_value pg)
    (lineHeightInput_value pg) (canvas_width pg) (canvas_height pg).

Definition updateYearSliderForCountry (pg : Page) (country : string)
    : Page * list SliderEffect :=
  match dataByCountry pg !! country with
  | None => (pg, [])
  | Some [] => (pg, [])
  | Some (first :: rest) =>
      let arr := first :: rest in
      let minYear := year first in
      let maxYear := year (List.last arr first) in
      (setCurrentYear pg (Some maxYear) (String_of_Z maxYear),
       [ SliderMin minYear; SliderMax maxYear; SliderValue maxYear;
         YearMinLabel (String_of_Z minYear);
         YearMaxLabel (String_of_Z maxYear);
         YearValueLabel (String_of_Z maxYear) ])
  end.

(** The [change] handler of the country select. *)
Definition onCountryChange (pg : Page) (rnd : RandomSource) (n : nat)
    : Page * list SliderEffect * (list Effect * nat) :=
  let pg1 := setCurrentCountry pg (Some (countrySelect_value pg)) in
  let '(pg2, writes) := updateYearSliderForCountry pg1 (countrySelect_value pg) in
  (pg2, writes, drawOutput pg2 rnd n).

(** The [input] handler of the year slider; a [NaN] year shows as NaN. *)
Definition onYearInput (pg : Page) (rnd : RandomSource) (n : nat)
    : Page * list SliderEffect * (list Effect * nat) :=
  let y := parseInt (yearSlider_value pg) in
  let pg1 := setCurrentYear pg y (yearSlider_value pg) in
  (pg1,
   [YearValueLabel (match y with Some v => String_of_Z v | None => "NaN"%string end)],
   drawOutput pg1 rnd n).

(** * Specification vocabulary *)

(** The clamp of the specification, written by cases. *)
Definition clamp (v lo hi : Q) : Q :=
  if Qlt_le_dec v lo then lo else if Qlt_le_dec hi v then hi else v.

(** [k] is an integer nearest to [v]. *)
Definition nearest (k : Z) (v : Q) : Prop := Qabs (inject_Z k - v) <= 1 # 2.

Fixpoint Qsum (l : list Q) : Q :=
  match l with
  | [] => 0
  | v :: l' => v + Qsum l'
  end.

(** Commands that [distortPath] subdivides. *)
Definition subdivided (c : PathCommand) : bool :=
  match c with
  | LineTo _ _ | QuadraticTo _ _ _ _ | CubicTo _ _ _ _ _ _ => true
  | MoveTo _ _ | ClosePath => false
  end.

Definition isLineTo (c : PathCommand) : bool :=
  match c with LineTo _ _ => true | _ => false end.

Definition countSubdivided (cs : list PathCommand) : nat :=
  length (List.filter subdivided cs).

(** The cursor after a command, and after a run of commands from the
    origin. *)
Definition cursorAfter (p : Q * Q) (c : PathCommand) : Q * Q :=
  match c with
  | MoveTo x y | LineTo x y | QuadraticTo _ _ x y | CubicTo _ _ _ _ x y => (x, y)
  | ClosePath => p
  end.

Definition cursor (cs : list PathCommand) : Q * Q :=
  fold_left cursorAfter cs (0, 0).

(** Peak-to-peak jitter factor and the bound per axis that goes with it. *)
Definition jitterFactor (c : PathCommand) : Q :=
  match c with LineTo _ _ => 6 | _ => 10 end.

Definition jitterBound (c : PathCommand) : Q :=
  match c with LineTo _ _ => 3 | _ => 5 end.

(** The [j]-th interior point (counted from 0) of a segment from
    [(px, py)] to [(tx, ty)], the segment's first draw being draw [n0]. *)
Definition interiorPoint (extraPoints : Z) (level factor : Q)
    (px py tx ty : Q) (rnd : RandomSource) (n0 : nat) (j : nat) : PathCommand :=
  let t := inject_Z (1 + Z.of_nat j) / inject_Z (extraPoints + 1) in
  LineTo (px + (tx - px) * t + (rnd (n0 + 2 * j)%nat - (1 # 2)) * (level * factor))
         (py + (ty - py) * t + (rnd (S (n0 + 2 * j)) - (1 # 2)) * (level * factor)).

(** What the walk appends for one command: its interior points, if it is
    subdivided, then the command. *)
Definition block (extraPoints : Z) (level : Q) (rnd : RandomSource)
    (p : Q * Q) (n0 : nat) (c : PathCommand) : list PathCommand :=
  (if subdivided c then
     map (interiorPoint extraPoints level (jitterFactor c) (fst p) (snd p)
            (fst (cursorAfter p c)) (snd (cursorAfter p c)) rnd n0)
         (seq 0 (Z.to_nat extraPoints))
   else []) ++ [c].

Fixpoint blocks (extraPoints : Z) (level : Q) (rnd : RandomSource)
    (p : Q * Q) (n0 : nat) (cs : list PathCommand) : list (list PathCommand) :=
  match cs with
  | [] => []
  | c :: cs' =>
      block extraPoints level rnd p n0 c
      :: blocks extraPoints level rnd (cursorAfter p c)
           (if subdivided c then n0 + 2 * Z.to_nat extraPoints else n0)%nat cs'
  end.

(** The width one character adds to a line. *)
Definition charWidth (font : Font) (scale letterSpacing : Q) (ch : ascii) : Q :=
  advanceWidth (charToGlyph font ch) * scale + letterSpacing.

(** A font for examples: A advances by 600 units, every other character
    by 500, at 1000 units per em; its outlines are empty. *)
Definition sampleFont : Font :=
  mkFont (fun ch => mkGlyph (if Ascii.eqb ch "A" then 600 else 500)
                      (fun _ _ _ => mkPath []))
    1000.

(** Rows and a page for examples: two valid rows for Chile, out of
    order, and two rows that [parseCSV] skips. *)
Definition sampleRows : list Row :=
  [ mkRow "Chile" (Some 2001%Z) (Some (3 # 4));
    mkRow "Chile" (Some 1999%Z) (Some (1 # 4));
    mkRow "" (Some 1999%Z) (Some (1 # 2));
    mkRow "Peru" None (Some (1 # 2)) ].

Definition samplePage : Page :=
  mkPage (Some sampleFont) (parseCSV sampleRows ∅) None None
    "  free  press " "Chile" "2000" "100" "2" "120" 800 600.

(** A word: non-empty and free of white space. *)
Definition isWord (w : string) : Prop :=
  w <> EmptyString /\ Forall (fun c => isSpace c = false) (list_ascii_of_string w).

(** The layout in the words of the specification.  Words are taken one
    by one; a word whose addition, after a space, makes a non-empty
    current line wider than [maxWidth] commits that line and starts the
    next one; any other word extends the current line, or starts it when
    it is empty; what is left at the end is committed if it is not empty. *)
Fixpoint greedyLines (maxWidth : Q) (font : Font) (scale letterSpacing : Q)
    (currentLine : string) (words : list string) : list string :=
  match words with
  | [] => if truthy currentLine then [currentLine] else []
  | word :: rest =>
      if truthy currentLine then
        if Qle_bool
             (measureLineWidth (currentLine +:+ " " +:+ word) font scale letterSpacing)
             maxWidth
        then greedyLines maxWidth font scale letterSpacing
               (currentLine +:+ " " +:+ word) rest
        else currentLine
             :: greedyLines maxWidth font scale letterSpacing word rest
      else greedyLines maxWidth font scale letterSpacing word rest
  end.

(** A line that begins with the word [w]: the word alone, or the word, a
    space and more. *)
Definition beginsWith (w line : string) : Prop :=
  line = w \/ exists more, line = w +:+ " " +:+ more.

(** A list of words in which only the last may be empty. *)
Fixpoint innerWords (words : list string) : Prop :=
  match words with
  | [] => True
  | w :: rest =>
      match rest with
      | [] => True
      | _ :: _ => w <> EmptyString /\ innerWords rest
      end
  end.

(** Draws for examples: 0, 1/7, ..., 6/7, and again. *)
Definition sampleRandom : RandomSource :=
  fun k => inject_Z (Z.of_nat (k mod 7)) / 7.

(** The country and the year [drawOutput] settles on. *)
Definition selectedCountry (pg : Page) : string :=
  match currentCountry pg with
  | Some c => if truthy c then c else countrySelect_value pg
  | None => countrySelect_value pg
  end.

Definition selectedYear (pg : Page) : option Z :=
  match currentYear pg with
  | Some v => if (v =? 0)%Z then parseInt (yearSlider_value pg) else Some v
  | None => parseInt (yearSlider_value pg)
  end.

Definition isBackground (e : Effect) : bool :=
  match e with Background _ => true | _ => false end.
Definition isBlur (e : Effect) : bool :=
  match e with Blur _ => true | _ => false end.
Definition isDraw (e : Effect) : bool :=
  match e with Draw _ => true | _ => false end.

Definition countEffects (f : Effect -> bool) (out : list Effect) : nat :=
  length (List.filter f out).

(** Entries in ascending order of year. *)
Definition ascending (arr : list Entry) : Prop :=
  StronglySorted (fun d e => (year d <= year e)%Z) arr.

(** The entries that the valid rows of a country contribute, in the order
    of the rows.  A row is valid when its country is not empty and its
    year and score are numbers. *)
Definition rowEntry (country : string) (row : Row) : list Entry :=
  match rowCountry row, rowYear row, rowScore row with
  | String c0 s0, Some yr, Some sc =>
      if String.eqb (String c0 s0) country then [mkEntry yr sc] else []
  | _, _, _ => []
  end.

Definition validEntries (country : string) (rows : list Row) : list Entry :=
  flat_map (rowEntry country) rows.

Definition hasYear (y : Z) (d : Entry) : bool := (year d =? y)%Z.

(** A string that does not begin, or does not end, with white space; the
    empty string counts as clean. *)
Definition startsClean (s : string) : bool :=
  match s with
  | EmptyString => true
  | String c _ => negb (isSpace c)
  end.

Fixpoint endsClean (s : string) : bool :=
  match s with
  | EmptyString => true
  | String c EmptyString => negb (isSpace c)
  | String _ rest => endsClean rest
  end.

(** Lines joined by single spaces. *)
Definition joined (lines : list string) : string := String.concat " " lines.

Definition isClearRect (e : Effect) : bool :=
  match e with ClearRect _ _ _ _ => true | _ => false end.

(** The number of characters in a list of lines. *)
Definition charCount (lines : list string) : nat :=
  length (flat_map list_ascii_of_string lines).

(** The text, sizes and lines that [drawOutput] works with when the font
    is [f]. *)
Definition renderText (pg : Page) : string :=
  let v := trim (textInput_value pg) in if truthy v then v else "font"%string.

Definition renderFontSize (pg : Page) : Q :=
  match parseInt (fontSizeInput_value pg) with
  | Some v => if (v =? 0)%Z then 120 else inject_Z v
  | None => 120
  end.

Definition renderLetterSpacing (pg : Page) : Q :=
  match parseInt (letterSpacingInput_value pg) with
  | Some v => inject_Z v
  | None => 0
  end.

Definition renderScale (pg : Page) (f : Font) : Q :=
  renderFontSize pg / (if Qeq_bool (unitsPerEm f) 0 then 1000 else unitsPerEm f).

Definition renderLines (pg : Page) (f : Font) : list string :=
  layoutTextIntoLines (renderText pg) (inject_Z (canvas_width pg) * (8 # 10)) f
    (renderScale pg f) (renderLetterSpacing pg).

(** The score [drawOutput] shows: the looked-up score, or 0.5, clamped. *)
Definition shownScore (pg : Page) : Q :=
  Math_max 0
    (Math_min 1
       (match getCurrentScore (dataByCountry pg) (selectedCountry pg) (selectedYear pg) with
        | Some v => v
        | None => 1 # 2
        end)).

(** * Score mapping *)

Lemma clamp_max_min (v : Q) : Math_max 0 (Math_min 1 v) == clamp v 0 1.
Proof.
  unfold Math_max, Math_min, clamp.
  destruct (Qlt_le_dec v 0) as [H|H].
  - rewrite (Q.min_r 1 v) by lra. apply Q.max_l. lra.
  - destruct (Qlt_le_dec 1 v) as [H1|H1].
    + rewrite (Q.min_l 1 v) by lra. apply Q.max_r. lra.
    + rewrite (Q.min_r 1 v) by lra. apply Q.max_r. lra.
Qed.

Lemma clamp_range (v : Q) : 0 <= Math_max 0 (Math_min 1 v) <= 1.
Proof.
  rewrite clamp_max_min. unfold clamp.
  destruct (Qlt_le_dec v 0); [lra|]. destruct (Qlt_le_dec 1 v); lra.
Qed.

Lemma clamp_mono (u v : Q) :
  u <= v -> Math_max 0 (Math_min 1 u) <= Math_max 0 (Math_min 1 v).
Proof.
  intros H. rewrite !clamp_max_min. unfold clamp.
  destruct (Qlt_le_dec u 0), (Qlt_le_dec v 0); try lra;
    destruct (Qlt_le_dec 1 u), (Qlt_le_dec 1 v); lra.
Qed.

Lemma Math_round_mono (u v : Q) : u <= v -> (Math_round u <= Math_round v)%Z.
Proof. intros H. unfold Math_round. apply Qfloor_resp_le. lra. Qed.

Lemma Math_round_nearest (v : Q) : nearest (Math_round v) v.
Proof.
  unfold nearest, Math_round.
  pose proof (Qfloor_le (v + (1 # 2))) as Hlo.
  pose proof (Qlt_floor (v + (1 # 2))) as Hhi.
  rewrite inject_Z_plus in Hhi. change (inject_Z 1) with 1 in Hhi.
  apply Qabs_Qle_condition. split; lra.
Qed.

(** C5. [scoreToDistortion score] is [1 - clamp(score, 0, 1)] for every
    score; it is non-increasing in the score, and takes the values 1, 0,
    1 and 0 at the scores 0, 1, -0.5 and 1.5. *)
Theorem scoreToDistortion_clamp :
  (forall score, scoreToDistortion score == 1 - clamp score 0 1) /\
  (forall s1 s2, s1 <= s2 -> scoreToDistortion s2 <= scoreToDistortion s1) /\
  scoreToDistortion 0 == 1 /\
  scoreToDistortion 1 == 0 /\
  scoreToDistortion (- (1 # 2)) == 1 /\
  scoreToDistortion (3 # 2) == 0.
Proof.
  repeat split; try reflexivity.
  - intros score. unfold scoreToDistortion. rewrite clamp_max_min. reflexivity.
  - intros s1 s2 H. unfold scoreToDistortion.
    pose proof (clamp_mono s1 s2 H). lra.
Qed.

Lemma scoreToDistortion_clamp_witness :
  scoreToDistortion (3 # 4) <= scoreToDistortion (1 # 4).
Proof.
  apply (proj1 (proj2 scoreToDistortion_clamp) (1 # 4) (3 # 4)).
  unfold Qle. simpl. lia.
Defined.

(** C6. Each channel of [scoreToColor score] is an integer nearest to the
    linear interpolation, at the clamped score, between the anchors
    (220, 40, 40) and (20, 210, 120); the anchors are the colors of the
    scores 0 and 1; and from a score to a greater one within [0, 1] red
    does not increase while green and blue do not decrease. *)
Theorem scoreToColor_interpolates :
  (forall score,
     let s := clamp score 0 1 in
     nearest (r (scoreToColor score)) (220 + (20 - 220) * s) /\
     nearest (g (scoreToColor score)) (40 + (210 - 40) * s) /\
     nearest (b (scoreToColor score)) (40 + (120 - 40) * s)) /\
  scoreToColor 0 = mkColor 220 40 40 /\
  scoreToColor 1 = mkColor 20 210 120 /\
  (forall s1 s2, 0 <= s1 -> s1 < s2 -> s2 <= 1 ->
     (r (scoreToColor s2) <= r (scoreToColor s1))%Z /\
     (g (scoreToColor s1) <= g (scoreToColor s2))%Z /\
     (b (scoreToColor s1) <= b (scoreToColor s2))%Z).
Proof.
  split; [|split; [reflexivity|split; [reflexivity|]]].
  - intros score s. unfold scoreToColor, lerp. cbn [r g b].
    pose proof (clamp_max_min score) as E. fold s in E.
    repeat split.
    + pose proof (Math_round_nearest (220 + (20 - 220) * Math_max 0 (Math_min 1 score))) as N.
      unfold nearest in *. rewrite <- E. exact N.
    + pose proof (Math_round_nearest (40 + (210 - 40) * Math_max 0 (Math_min 1 score))) as N.
      unfold nearest in *. rewrite <- E. exact N.
    + pose proof (Math_round_nearest (40 + (120 - 40) * Math_max 0 (Math_min 1 score))) as N.
      unfold nearest in *. rewrite <- E. exact N.
  - intros s1 s2 H0 H12 H1. unfold scoreToColor, lerp. cbn [r g b].
    assert (Hm : Math_max 0 (Math_min 1 s1) <= Math_max 0 (Math_min 1 s2))
      by (apply clamp_mono; lra).
    repeat split; apply Math_round_mono; lra.
Qed.

Lemma scoreToColor_interpolates_witness :
  (r (scoreToColor (3 # 4)) <= r (scoreToColor (1 # 4)))%Z /\
  (g (scoreToColor (1 # 4)) <= g (scoreToColor (3 # 4)))%Z /\
  (b (scoreToColor (1 # 4)) <= b (scoreToColor (3 # 4)))%Z.
Proof.
  apply (proj2 (proj2 (proj2 scoreToColor_interpolates)) (1 # 4) (3 # 4));
    unfold Qle, Qlt; simpl; lia.
Defined.

(** * Path distortion *)

Section Walk.

Variables (extraPoints : Z) (level : Q) (rnd : RandomSource).

Lemma subdivide_spec (factor tx ty : Q) (count : nat) :
  forall (i n0 : nat) (w : Walk),
    calls w = (n0 + 2 * i)%nat ->
    subdivide count (1 + Z.of_nat i) extraPoints level factor tx ty rnd w =
    {| newCommands :=
         newCommands w ++
         map (interiorPoint extraPoints level factor (prevX w) (prevY w)
                tx ty rnd n0)
           (seq i count);
       prevX := prevX w;
       prevY := prevY w;
       calls := calls w + 2 * count |}%nat.
Proof.
  induction count as [|count IH]; intros i n0 w H; cbn [subdivide seq map].
  - rewrite app_nil_r, Nat.add_0_r. destruct w; reflexivity.
  - replace (1 + Z.of_nat i + 1)%Z with (1 + Z.of_nat (S i))%Z by lia.
    rewrite (IH (S i) n0) by (cbn [calls]; lia).
    cbn [newCommands prevX prevY calls].
    rewrite <- app_assoc. cbn [app].
    f_equal; [|lia].
    f_equal. f_equal.
    unfold interiorPoint. rewrite <- H. reflexivity.
Qed.

Lemma distortStep_spec (w : Walk) (c : PathCommand) :
  distortStep extraPoints level rnd w c =
  {| newCommands :=
       newCommands w ++ block extraPoints level rnd (prevX w, prevY w) (calls w) c;
     prevX := fst (cursorAfter (prevX w, prevY w) c);
     prevY := snd (cursorAfter (prevX w, prevY w) c);
     calls := if subdivided c then calls w + 2 * Z.to_nat extraPoints else calls w |}%nat.
Proof.
  destruct c; cbn [distortStep block subdivided cursorAfter fst snd jitterFactor app];
    try reflexivity;
    unfold segment;
    rewrite (subdivide_spec _ _ _ _ 0%nat (calls w)) by lia;
    cbn [newCommands prevX prevY calls]; rewrite <- app_assoc; reflexivity.
Qed.

Lemma walk_spec (cs : list PathCommand) :
  forall w : Walk,
    fold_left (distortStep extraPoints level rnd) cs w =
    {| newCommands :=
         newCommands w ++
         concat (blocks extraPoints level rnd (prevX w, prevY w) (calls w) cs);
       prevX := fst (fold_left cursorAfter cs (prevX w, prevY w));
       prevY := snd (fold_left cursorAfter cs (prevX w, prevY w));
       calls := calls w + 2 * Z.to_nat extraPoints * countSubdivided cs |}%nat.
Proof.
  unfold countSubdivided.
  induction cs as [|c cs IH]; intros w; cbn [fold_left blocks concat List.filter].
  - cbn. rewrite app_nil_r, Nat.mul_0_r, Nat.add_0_r. destruct w; reflexivity.
  - rewrite IH, distortStep_spec. cbn [newCommands prevX prevY calls].
    rewrite <- surjective_pairing, <- app_assoc.
    f_equal. destruct (subdivided c); cbn [length]; nia.
Qed.

Lemma blocks_app (pre post : list PathCommand) :
  forall (p : Q * Q) (n0 : nat),
    blocks extraPoints level rnd p n0 (pre ++ post) =
    blocks extraPoints level rnd p n0 pre ++
    blocks extraPoints level rnd (fold_left cursorAfter pre p)
      (n0 + 2 * Z.to_nat extraPoints * countSubdivided pre)%nat post.
Proof.
  unfold countSubdivided.
  induction pre as [|c pre IH]; intros p n0; cbn [app blocks fold_left List.filter].
  - cbn. rewrite Nat.mul_0_r, Nat.add_0_r. reflexivity.
  - rewrite IH. f_equal. f_equal.
    destruct (subdivided c); cbn [length]; [f_equal; nia|reflexivity].
Qed.

Lemma length_block (p : Q * Q) (n0 : nat) (c : PathCommand) :
  length (block extraPoints level rnd p n0 c) =
  ((if subdivided c then Z.to_nat extraPoints else 0) + 1)%nat.
Proof.
  unfold block. rewrite length_app. destruct (subdivided c); cbn [length].
  - rewrite length_map, length_seq. reflexivity.
  - reflexivity.
Qed.

Lemma length_concat_blocks (cs : list PathCommand) :
  forall (p : Q * Q) (n0 : nat),
    length (concat (blocks extraPoints level rnd p n0 cs)) =
    (length cs + Z.to_nat extraPoints * countSubdivided cs)%nat.
Proof.
  unfold countSubdivided.
  induction cs as [|c cs IH]; intros p n0; cbn [blocks concat List.filter length].
  - lia.
  - rewrite length_app, IH, length_block.
    destruct (subdivided c); cbn [length]; nia.
Qed.

End Walk.

Lemma distortPath_blocks (path : Path) (level : Q) (rnd : RandomSource) (n : nat) :
  0 < level ->
  (0 < Math_round (level * MAX_EXTRA_POINTS))%Z ->
  let extraPoints := Math_round (level * MAX_EXTRA_POINTS) in
  distortPath path level rnd n =
  ({| commands := concat (blocks extraPoints level rnd (0, 0) n (commands path)) |},
   (n + 2 * Z.to_nat extraPoints * countSubdivided (commands path))%nat).
Proof.
  intros Hl He extraPoints. unfold distortPath.
  destruct (Qle_bool level 0) eqn:E.
  - apply Qle_bool_iff in E. lra.
  - fold extraPoints. destruct (Z.leb_spec extraPoints 0); [unfold extraPoints in *; lia|].
    rewrite walk_spec. reflexivity.
Qed.



Lemma blocks_shape (extraPoints : Z) (level : Q) (rnd : RandomSource)
    (cs : list PathCommand) :
  forall (p : Q * Q) (n0 : nat),
    Forall2
      (fun c blk =>
         exists ins,
           blk = ins ++ [c] /\
           length ins = (if subdivided c then Z.to_nat extraPoints else 0)%nat /\
           forallb isLineTo ins = true)
      cs (blocks extraPoints level rnd p n0 cs).
Proof.
  induction cs as [|c cs IH]; intros p n0; cbn [blocks]; constructor; [|apply IH].
  unfold block. eexists. split; [reflexivity|].
  destruct (subdivided c); [|split; reflexivity].
  rewrite length_map, length_seq. split; [reflexivity|].
  apply forallb_forall. intros q Hq. apply in_map_iff in Hq.
  destruct Hq as [j [<- _]]. reflexivity.
Qed.

Lemma jitter_range (rv level factor bound : Q) :
  0 <= rv -> rv < 1 -> 0 < level -> factor == 2 * bound -> 0 < bound ->
  Qabs ((rv - (1 # 2)) * (level * factor)) <= level * bound.
Proof.
  intros H0 H1 Hl Hf Hb. apply Qabs_Qle_condition. rewrite Hf.
  assert (Hp : 0 < level * bound) by nra.
  split; nra.
Qed.

(** C8. [distortPath] leaves the path as it is, and draws nothing, when
    the level is at most 0 and when [extraPoints], the rounding of
    [level * MAX_EXTRA_POINTS], is at most 0. *)
Theorem distortPath_identity (path : Path) (level : Q) (rnd : RandomSource) (n : nat) :
  level <= 0 \/ (Math_round (level * MAX_EXTRA_POINTS) <= 0)%Z ->
  distortPath path level rnd n = (path, n).
Proof.
  intros H. unfold distortPath.
  destruct (Qle_bool level 0) eqn:E; [reflexivity|].
  destruct H as [H|H].
  - apply Qle_bool_iff in H. congruence.
  - apply Z.leb_le in H. rewrite H. reflexivity.
Qed.

Lemma distortPath_identity_witness :
  distortPath (mkPath [MoveTo 0 0; LineTo 3 4; QuadraticTo 1 1 5 6; ClosePath])
    (1 # 25) (fun _ => 1 # 3) 0 =
  (mkPath [MoveTo 0 0; LineTo 3 4; QuadraticTo 1 1 5 6; ClosePath], 0%nat).
Proof.
  apply distortPath_identity. right. vm_compute. discriminate.
Defined.

(** C1. At level 1, with [MAX_EXTRA_POINTS] = 10, the output of
    [distortPath] is the input with a block of inserted commands in front
    of every command: ten [LineTo] commands in front of a [LineTo],
    [QuadraticTo] or [CubicTo], none in front of a [MoveTo] or
    [ClosePath].  The original commands stay as they are, in their order. *)
Theorem distortPath_full_level (path : Path) (rnd : RandomSource) (n : nat) :
  exists bs : list (list PathCommand),
    commands (fst (distortPath path 1 rnd n)) = concat bs /\
    Forall2
      (fun c blk =>
         exists ins,
           blk = ins ++ [c] /\
           length ins = (if subdivided c then 10 else 0)%nat /\
           forallb isLineTo ins = true)
      (commands path) bs.
Proof.
  rewrite distortPath_blocks by (vm_compute; reflexivity).
  eexists. split; [reflexivity|].
  apply (blocks_shape 10).
Qed.



(** C4. Take a [LineTo], [QuadraticTo] or [CubicTo] command [c] of the
    path, with the commands [pre] before it.  In the output it is preceded
    by [extraPoints] interior points, and the [j]-th of them is the point
    at fraction [(j + 1) / (extraPoints + 1)] of the straight segment from
    the cursor to the target of [c], moved by [(jx, jy)] with
    [|jx|, |jy| <= level * 3] for a [LineTo] and [<= level * 5] for a
    curve, whatever the draws in [0, 1) are. *)
Theorem jitter_bounded (path : Path) (level : Q) (rnd : RandomSource) (n : nat)
    (pre post : list PathCommand) (c : PathCommand) :
  (forall k, 0 <= rnd k /\ rnd k < 1) ->
  0 < level ->
  (0 < Math_round (level * MAX_EXTRA_POINTS))%Z ->
  commands path = pre ++ c :: post ->
  subdivided c = true ->
  let extraPoints := Math_round (level * MAX_EXTRA_POINTS) in
  let px := fst (cursor pre) in
  let py := snd (cursor pre) in
  let tx := fst (cursorAfter (cursor pre) c) in
  let ty := snd (cursorAfter (cursor pre) c) in
  exists before ins after,
    commands (fst (distortPath path level rnd n)) = before ++ ins ++ c :: after /\
    length before = (length pre + Z.to_nat extraPoints * countSubdivided pre)%nat /\
    length ins = Z.to_nat extraPoints /\
    forall j, (j < Z.to_nat extraPoints)%nat ->
      let t := inject_Z (1 + Z.of_nat j) / inject_Z (extraPoints + 1) in
      exists jx jy,
        nth_error ins j =
          Some (LineTo (px + (tx - px) * t + jx) (py + (ty - py) * t + jy)) /\
        Qabs jx <= level * jitterBound c /\
        Qabs jy <= level * jitterBound c.
Proof.
  intros Hr Hl He Hp Hc extraPoints px py tx ty.
  rewrite distortPath_blocks by assumption. fold extraPoints.
  cbn [fst commands]. rewrite Hp, blocks_app. cbn [blocks].
  rewrite concat_app. cbn [concat]. unfold block at 1. rewrite Hc.
  fold (cursor pre). fold px py tx ty.
  rewrite <- !app_assoc. cbn [app].
  eexists _, _, _. split; [reflexivity|].
  split; [apply length_concat_blocks|].
  split; [rewrite length_map, length_seq; reflexivity|].
  intros j Hj.
  set (n0 := (n + 2 * Z.to_nat extraPoints * countSubdivided pre)%nat).
  exists ((rnd (n0 + 2 * j)%nat - (1 # 2)) * (level * jitterFactor c)),
         ((rnd (S (n0 + 2 * j)) - (1 # 2)) * (level * jitterFactor c)).
  split.
  - rewrite nth_error_map, nth_error_seq.
    destruct (Nat.ltb_spec j (Z.to_nat extraPoints)); [|lia].
    reflexivity.
  - assert (Hf : jitterFactor c == 2 * jitterBound c /\ 0 < jitterBound c)
      by (destruct c; cbn; split; reflexivity).
    destruct Hf as [Hf Hb].
    split; apply jitter_range; try assumption; apply Hr.
Qed.

Lemma jitter_bounded_witness :
  exists before ins after,
    commands (fst (distortPath (mkPath [MoveTo 1 1; QuadraticTo 2 3 7 4; ClosePath])
                     (1 # 5) (fun k => if Nat.even k then 1 # 4 else 9 # 10) 0)) =
      before ++ ins ++ QuadraticTo 2 3 7 4 :: after /\
    length before = 1%nat /\
    length ins = 2%nat /\
    forall j, (j < 2)%nat ->
      exists jx jy,
        nth_error ins j =
          Some (LineTo (1 + (7 - 1) * (inject_Z (1 + Z.of_nat j) / inject_Z 3) + jx)
                       (1 + (4 - 1) * (inject_Z (1 + Z.of_nat j) / inject_Z 3) + jy)) /\
        Qabs jx <= (1 # 5) * 5 /\
        Qabs jy <= (1 # 5) * 5.
Proof.
  apply (jitter_bounded
           (mkPath [MoveTo 1 1; QuadraticTo 2 3 7 4; ClosePath])
           (1 # 5) (fun k => if Nat.even k then 1 # 4 else 9 # 10) 0
           [MoveTo 1 1] [ClosePath] (QuadraticTo 2 3 7 4)).
  - intros k. destruct (Nat.even k); split; try reflexivity; discriminate.
  - reflexivity.
  - reflexivity.
  - reflexivity.
  - reflexivity.
Defined.

(** * Text layout *)

Section Measure.

Variables (font : Font) (scale letterSpacing : Q).

Lemma fold_width (l : list ascii) :
  forall a : Q,
    fold_left
      (fun width ch =>
         let glyph := charToGlyph font ch in
         width + (advanceWidth glyph * scale + letterSpacing)) l a ==
    a + Qsum (map (charWidth font scale letterSpacing) l).
Proof.
  induction l as [|ch l IH]; intros a; cbn [fold_left map Qsum].
  - lra.
  - rewrite IH. unfold charWidth at 2. lra.
Qed.

Lemma measure_sum (str : string) :
  measureLineWidth str font scale letterSpacing ==
  Qsum (map (charWidth font scale letterSpacing) (list_ascii_of_string str)).
Proof. unfold measureLineWidth. rewrite fold_width. lra. Qed.


Lemma list_ascii_of_string_app (s1 s2 : string) :
  list_ascii_of_string (s1 +:+ s2) =
  list_ascii_of_string s1 ++ list_ascii_of_string s2.
Proof. induction s1 as [|c s1 IH]; simpl; [reflexivity|]. f_equal. exact IH. Qed.



Lemma Qsum_spacing (l : list ascii) :
  Qsum (map (charWidth font scale letterSpacing) l) ==
  Qsum (map (fun ch => advanceWidth (charToGlyph font ch) * scale) l) +
  inject_Z (Z.of_nat (length l)) * letterSpacing.
Proof.
  induction l as [|ch l IH]; cbn [map Qsum length].
  - change (inject_Z (Z.of_nat 0)) with 0. lra.
  - rewrite IH, Nat2Z.inj_succ. unfold Z.succ. rewrite inject_Z_plus.
    unfold charWidth. change (inject_Z 1) with 1. lra.
Qed.

End Measure.

(** C7. [measureLineWidth] is the sum, over the characters of the string,
    of the advance width times the scale plus the letter spacing; the
    spacing is counted once for every character, the last one included.
    With advances 600 for A and 500 for B, 1000 units per em, a font size
    of 100 and a letter spacing of 2, the width of AB is 114. *)
Theorem measureLineWidth_sum :
  (forall str font scale letterSpacing,
     measureLineWidth str font scale letterSpacing ==
     Qsum (map (fun ch => advanceWidth (charToGlyph font ch) * scale + letterSpacing)
             (list_ascii_of_string str))) /\
  (forall str font scale letterSpacing,
     measureLineWidth str font scale letterSpacing ==
     Qsum (map (fun ch => advanceWidth (charToGlyph font ch) * scale)
             (list_ascii_of_string str)) +
     inject_Z (Z.of_nat (String.length str)) * letterSpacing) /\
  (forall font,
     advanceWidth (charToGlyph font "A") == 600 ->
     advanceWidth (charToGlyph font "B") == 500 ->
     unitsPerEm font == 1000 ->
     measureLineWidth "AB" font (100 / unitsPerEm font) 2 == 114).
Proof.
  split; [|split].
  - intros. apply measure_sum.
  - intros. rewrite measure_sum, Qsum_spacing.
    replace (length (list_ascii_of_string str)) with (String.length str);
      [reflexivity|].
    induction str as [|c str IH]; cbn; [reflexivity|]. now rewrite IH.
  - intros font HA HB HU. rewrite measure_sum. cbn. unfold charWidth.
    rewrite HA, HB, HU. reflexivity.
Qed.

Lemma measureLineWidth_sum_witness :
  measureLineWidth "AB" sampleFont (100 / unitsPerEm sampleFont) 2 == 114.
Proof.
  apply (proj2 (proj2 measureLineWidth_sum) sampleFont); reflexivity.
Defined.

Lemma append_cons (c : ascii) (s t : string) :
  String c s +:+ t = String c (s +:+ t).
Proof. reflexivity. Qed.







Section Layout.

Variables (maxWidth : Q) (font : Font) (scale letterSpacing : Q).

Let width (s : string) : Q := measureLineWidth s font scale letterSpacing.
Let step := layoutStep maxWidth font scale letterSpacing.


Lemma truthy_iff (s : string) : truthy s = true <-> s <> EmptyString.
Proof. destruct s; simpl; split; congruence. Qed.





Hypothesis metrics_nonneg : forall ch, 0 <= charWidth font scale letterSpacing ch.





End Layout.



(** * Score lookup *)

Lemma insertByYear_In (e d : Entry) (arr : list Entry) :
  In d (insertByYear e arr) -> d = e \/ In d arr.
Proof.
  induction arr as [|a arr IH]; cbn [insertByYear].
  - intros [H|[]]. left. congruence.
  - destruct (year e <=? year a)%Z.
    + intros [H|H]; [left; congruence|right; exact H].
    + intros [H|H]; [right; left; exact H|].
      destruct (IH H) as [H'|H']; [left; exact H'|right; right; exact H'].
Qed.

Lemma insertByYear_ascending (e : Entry) (arr : list Entry) :
  ascending arr -> ascending (insertByYear e arr).
Proof.
  unfold ascending. induction arr as [|a arr IH]; intros Hs; cbn [insertByYear].
  - constructor; constructor.
  - apply StronglySorted_inv in Hs. destruct Hs as [Hs Ha].
    destruct (Z.leb_spec (year e) (year a)).
    + constructor; [constructor; assumption|].
      constructor; [assumption|].
      rewrite List.Forall_forall in Ha |- *. intros d Hd. specialize (Ha d Hd). lia.
    + constructor; [apply IH, Hs|].
      apply List.Forall_forall. intros d Hd. apply insertByYear_In in Hd.
      destruct Hd as [->|Hd]; [lia|].
      rewrite List.Forall_forall in Ha. apply Ha, Hd.
Qed.

Lemma sortByYear_ascending (arr : list Entry) : ascending (sortByYear arr).
Proof.
  unfold sortByYear. induction arr as [|a arr IH]; cbn [fold_right].
  - constructor.
  - apply insertByYear_ascending, IH.
Qed.

Lemma insertByYear_nonempty (e : Entry) (arr : list Entry) : insertByYear e arr <> [].
Proof. destruct arr; cbn [insertByYear]; [|destruct (_ <=? _)%Z]; discriminate. Qed.

Lemma sortByYear_nonempty (arr : list Entry) : arr <> [] -> sortByYear arr <> [].
Proof.
  destruct arr as [|a arr]; [contradiction|]. intros _.
  unfold sortByYear. cbn [fold_right]. apply insertByYear_nonempty.
Qed.

Lemma addRow_nonempty (data : gmap string (list Entry)) (row : Row) :
  (forall k arr, data !! k = Some arr -> arr <> []) ->
  forall k arr, addRow data row !! k = Some arr -> arr <> [].
Proof.
  intros Hd k arr. unfold addRow.
  destruct (rowCountry row) as [|c0 s0] eqn:Ec; [apply Hd|].
  destruct (rowYear row) as [yr|]; [|apply Hd].
  destruct (rowScore row) as [sc|]; [|apply Hd].
  destruct (decide (String c0 s0 = k)) as [->|Hk].
  - rewrite lookup_insert_eq. intros [= <-]. intros H.
    apply app_eq_nil in H. destruct H as [_ H]. discriminate.
  - rewrite lookup_insert_ne by exact Hk.
    destruct (data !! String c0 s0); [apply Hd|].
    rewrite lookup_insert_ne by exact Hk. apply Hd.
Qed.

Lemma addRows_nonempty (rows : list Row) :
  forall data : gmap string (list Entry),
    (forall k arr, data !! k = Some arr -> arr <> []) ->
    forall k arr, fold_left addRow rows data !! k = Some arr -> arr <> [].
Proof.
  induction rows as [|row rows IH]; intros data Hd; cbn [fold_left]; [exact Hd|].
  apply IH, addRow_nonempty, Hd.
Qed.

Lemma parseCSV_arrays (rows : list Row) (country : string) (arr : list Entry) :
  parseCSV rows ∅ !! country = Some arr -> arr <> [] /\ ascending arr.
Proof.
  unfold parseCSV. rewrite lookup_fmap.
  destruct (fold_left addRow rows ∅ !! country) as [raw|] eqn:E; [|discriminate].
  cbn. intros [= <-]. split; [|apply sortByYear_ascending].
  apply sortByYear_nonempty.
  apply (addRows_nonempty rows ∅) with (k := country); [|exact E].
  intros k a H. rewrite lookup_empty in H. discriminate.
Qed.

Section Best.

Variable y : Z.

Let pick (best d : Entry) : Entry :=
  if year_le d (Some y) && (year best <=? year d)%Z then d else best.

Lemma best_before (l : list Entry) (b0 : Entry) :
  (y < year b0)%Z ->
  Forall (fun e => (year b0 <= year e)%Z) l ->
  fold_left pick l b0 = b0.
Proof.
  intros Hy. induction l as [|d l IH]; intros Hl; cbn [fold_left]; [reflexivity|].
  apply List.Forall_cons_iff in Hl. destruct Hl as [Hd Hl].
  unfold pick at 2. cbn [year_le].
  destruct (Z.leb_spec (year d) y); [lia|]. cbn [andb]. apply IH, Hl.
Qed.

Lemma best_latest (l : list Entry) :
  forall b0 : Entry,
    (year b0 <= y)%Z ->
    ascending l ->
    Forall (fun e => (year b0 <= year e)%Z) l ->
    let best := fold_left pick l b0 in
    In best (b0 :: l) /\
    (year best <= y)%Z /\
    forall e, In e (b0 :: l) -> (year e <= y)%Z -> (year e <= year best)%Z.
Proof.
  unfold ascending.
  induction l as [|d l IH]; intros b0 Hb Hs Hl; cbn zeta; cbn [fold_left].
  - split; [left; reflexivity|]. split; [exact Hb|].
    intros e [<-|[]] _. lia.
  - apply StronglySorted_inv in Hs. destruct Hs as [Hs Hd].
    apply List.Forall_cons_iff in Hl. destruct Hl as [Hbd Hl].
    assert (Hp : pick b0 d =
                 if (year d <=? y)%Z && (year b0 <=? year d)%Z then d else b0)
      by reflexivity.
    rewrite Hp. clear Hp.
    destruct (Z.leb_spec (year d) y) as [Hdy|Hdy];
      destruct (Z.leb_spec (year b0) (year d)); try lia; cbn [andb].
    + destruct (IH d Hdy Hs Hd) as [Hin [Hle Hmax]].
      split; [right; exact Hin|]. split; [exact Hle|].
      intros e [<-|He] Hey; [|apply Hmax; assumption].
      specialize (Hmax d (or_introl eq_refl) Hdy). lia.
    + destruct (IH b0 Hb Hs Hl) as [Hin [Hle Hmax]].
      split; [destruct Hin as [Hin|Hin]; [left; exact Hin|right; right; exact Hin]|].
      split; [exact Hle|].
      intros e [<-|[<-|He]] Hey.
      * apply Hmax; [left; reflexivity|exact Hey].
      * lia.
      * apply Hmax; [right; exact He|exact Hey].
Qed.

End Best.

(** * Rendering *)

Lemma glyphs_append (f : Font) (fontSize scale letterSpacing level y : Q)
    (rnd : RandomSource) (chars : list ascii) :
  forall st : Q * list Effect * nat,
    exists extra,
      snd (fst (fold_left (glyphStep f fontSize scale letterSpacing level y rnd)
                  chars st)) = snd (fst st) ++ extra.
Proof.
  induction chars as [|ch chars IH]; intros st; cbn [fold_left].
  - exists []. rewrite app_nil_r. reflexivity.
  - destruct (IH (glyphStep f fontSize scale letterSpacing level y rnd st ch))
      as [extra ->].
    destruct st as [[x out] k]. unfold glyphStep.
    destruct (distortPath _ _ _ _) as [p k']. cbn [fst snd].
    rewrite <- app_assoc. eexists. reflexivity.
Qed.

Lemma lines_append (f : Font) (width fontSize scale letterSpacing : Q)
    (lineHeightFactor level : Q) (rnd : RandomSource) (lines : list string) :
  forall st : Q * list Effect * nat,
    exists extra,
      snd (fst (fold_left
                  (lineStep f width fontSize scale letterSpacing lineHeightFactor
                     level rnd) lines st)) = snd (fst st) ++ extra.
Proof.
  induction lines as [|line lines IH]; intros st; cbn [fold_left].
  - exists []. rewrite app_nil_r. reflexivity.
  - destruct (IH (lineStep f width fontSize scale letterSpacing lineHeightFactor
                    level rnd st line)) as [extra ->].
    destruct st as [[y out] k]. unfold lineStep.
    match goal with
    | |- context [fold_left ?g ?l ?s] =>
        destruct (glyphs_append f fontSize scale letterSpacing level y rnd l s)
          as [extra' E];
        destruct (fold_left g l s) as [[x' out'] k']
    end.
    cbn [fst snd] in *. subst out'.
    rewrite <- app_assoc. eexists. reflexivity.
Qed.

(** Once a country is selected, [drawOutput] starts with the same six
    writes, whatever follows; without a font nothing follows. *)
Lemma drawOutput_head (pg : Page) (rnd : RandomSource) (n : nat) :
  truthy (selectedCountry pg) = true ->
  let score :=
    match getCurrentScore (dataByCountry pg) (selectedCountry pg) (selectedYear pg) with
    | Some v => v
    | None => 1 # 2
    end in
  let clampedScore := Math_max 0 (Math_min 1 score) in
  let head :=
    [ SetCurrentScore clampedScore;
      PanelCountry (selectedCountry pg);
      PanelYear (selectedYear pg);
      PanelScore clampedScore;
      Background (scoreToColor clampedScore);
      Blur (scoreToDistortion clampedScore * MAX_BLUR_PX) ] in
  (font pg = None -> drawOutput pg rnd n = (head, n)) /\
  exists extra, fst (drawOutput pg rnd n) = head ++ extra.
Proof.
  intros Hc score clampedScore head.
  unfold drawOutput. fold (selectedCountry pg). fold (selectedYear pg).
  rewrite Hc. cbn [negb]. fold score. fold clampedScore. fold head.
  destruct (font pg) as [f|].
  - split; [discriminate|].
    match goal with
    | |- context [fold_left (lineStep ?f ?w ?fs ?sc ?ls ?lh ?lv ?r) ?l ?s] =>
        destruct (lines_append f w fs sc ls lh lv r l s) as [extra E];
        destruct (fold_left (lineStep f w fs sc ls lh lv r) l s) as [[y' out'] k']
    end.
    cbn [fst snd] in *. subst out'.
    rewrite <- !app_assoc. eexists. reflexivity.
  - split; [reflexivity|]. exists []. rewrite app_nil_r. reflexivity.
Qed.

(** C9, as the code has it.  With no font and a country selected,
    [drawOutput] writes the background color once and the blur once, the
    blur being the distortion level times [MAX_BLUR_PX], draws no glyph
    and calls [Math.random] not at all. *)
Theorem drawOutput_without_font (pg : Page) (rnd : RandomSource) (n : nat) :
  font pg = None ->
  truthy (selectedCountry pg) = true ->
  let score :=
    match getCurrentScore (dataByCountry pg) (selectedCountry pg) (selectedYear pg) with
    | Some v => v
    | None => 1 # 2
    end in
  let clampedScore := Math_max 0 (Math_min 1 score) in
  let distortionLevel := scoreToDistortion clampedScore in
  let out := fst (drawOutput pg rnd n) in
  countEffects isBackground out = 1%nat /\
  countEffects isBlur out = 1%nat /\
  countEffects isDraw out = 0%nat /\
  List.filter isBackground out = [Background (scoreToColor clampedScore)] /\
  List.filter isBlur out = [Blur (distortionLevel * MAX_BLUR_PX)] /\
  snd (drawOutput pg rnd n) = n.
Proof.
  intros Hf Hc score clampedScore distortionLevel out.
  destruct (drawOutput_head pg rnd n Hc) as [H _].
  subst out. rewrite (H Hf). cbn. repeat split; reflexivity.
Qed.

Lemma drawOutput_without_font_witness :
  countEffects isBackground
    (fst (drawOutput
            (mkPage None ∅ (Some "Norway"%string) (Some 2020%Z)
               "free press" "Norway" "2020" "120" "0" "120" 800 600)
            (fun _ => 1 # 3) 0)) = 1%nat.
Proof.
  apply (drawOutput_without_font
           (mkPage None ∅ (Some "Norway"%string) (Some 2020%Z)
              "free press" "Norway" "2020" "120" "0" "120" 800 600)
           (fun _ => 1 # 3) 0); reflexivity.
Defined.

(** C9, as stated, fails when no country is selected: [drawOutput]
    returns before any write, so the background is not set. *)
Lemma drawOutput_no_country :
  ~ (font (mkPage None ∅ None None "free press" "" "" "120" "0" "120" 800 600) = None ->
     let out :=
       fst (drawOutput
              (mkPage None ∅ None None "free press" "" "" "120" "0" "120" 800 600)
              (fun _ => 1 # 3) 0) in
     countEffects isBackground out = 1%nat /\
     countEffects isBlur out = 1%nat /\
     countEffects isDraw out = 0%nat).
Proof.
  intros H. destruct (H eq_refl) as [H1 _]. vm_compute in H1. discriminate.
Qed.

(** C10. [getCurrentScore] is [null] exactly when the country has no
    array or an empty one (and then [drawOutput] works with the score
    0.5).  The arrays that [parseCSV] builds are non-empty and in
    ascending order of year, and on such an array the result is the score
    of an entry [d] of the array: one of the requested year if there is
    one; otherwise, if some year is below the requested one, one of the
    greatest year below it; and the first entry, which has the earliest
    year, if every year is above the requested one. *)
Theorem getCurrentScore_nearest_year :
  (forall data country yr,
     getCurrentScore data country yr = None <->
     (data !! country = None \/ data !! country = Some [])) /\
  (forall rows country arr,
     parseCSV rows ∅ !! country = Some arr -> arr <> [] /\ ascending arr) /\
  (forall (data : gmap string (list Entry)) country arr y,
     data !! country = Some arr -> arr <> [] -> ascending arr ->
     exists d,
       In d arr /\
       getCurrentScore data country (Some y) = Some (score d) /\
       ((exists e, In e arr /\ year e = y) -> year d = y) /\
       ((forall e, In e arr -> year e <> y) ->
        (exists e, In e arr /\ (year e < y)%Z) ->
        (year d < y)%Z /\
        forall e, In e arr -> (year e <= y)%Z -> (year e <= year d)%Z) /\
       ((forall e, In e arr -> (y < year e)%Z) ->
        head arr = Some d /\ forall e, In e arr -> (year d <= year e)%Z)) /\
  (forall pg rnd n,
     truthy (selectedCountry pg) = true ->
     getCurrentScore (dataByCountry pg) (selectedCountry pg) (selectedYear pg) = None ->
     In (PanelScore (1 # 2)) (fst (drawOutput pg rnd n)) /\
     In (Background (scoreToColor (1 # 2))) (fst (drawOutput pg rnd n))).
Proof.
  split; [|split; [|split]].
  - intros data country yr. unfold getCurrentScore.
    destruct (data !! country) as [[|first rest]|]; try tauto.
    + destruct (List.find _ _); split; try discriminate;
        intros [H|H]; discriminate.
  - apply parseCSV_arrays.
  - intros data country arr y Hd Hne Hs.
    unfold getCurrentScore. rewrite Hd.
    destruct arr as [|first rest]; [contradiction|]. clear Hne.
    assert (Hmin : forall e, In e (first :: rest) -> (year first <= year e)%Z).
    { apply StronglySorted_inv in Hs. destruct Hs as [_ Hf].
      rewrite List.Forall_forall in Hf.
      intros e [<-|He]; [lia|apply Hf, He]. }
    destruct (List.find (fun d => year_is d (Some y)) (first :: rest)) as [exact|] eqn:Ef.
    + apply find_some in Ef. destruct Ef as [Hin Hy].
      cbn [year_is] in Hy. apply Z.eqb_eq in Hy.
      exists exact. split; [exact Hin|]. split; [reflexivity|].
      split; [intros _; exact Hy|].
      split.
      * intros Hno _. exfalso. apply (Hno exact Hin Hy).
      * intros Hall. specialize (Hall exact Hin). lia.
    + assert (Hno : forall e, In e (first :: rest) -> year e <> y).
      { intros e He. pose proof (find_none _ _ Ef e He) as H.
        cbn [year_is] in H. apply Z.eqb_neq in H. exact H. }
      set (best := fold_left _ (first :: rest) first).
      destruct (Z.lt_ge_cases y (year first)) as [Hlt|Hge].
      * assert (Hb : best = first).
        { apply best_before; [exact Hlt|].
          apply List.Forall_forall. exact Hmin. }
        exists best. rewrite Hb.
        split; [left; reflexivity|]. split; [reflexivity|].
        split; [intros [e [He Hy]]; exfalso; apply (Hno e He Hy)|].
        split.
        -- intros _ [e [He Hy]]. specialize (Hmin e He). lia.
        -- intros _. split; [reflexivity|exact Hmin].
      * destruct (best_latest y (first :: rest) first Hge Hs) as [Hin [Hle Hmax]].
        { apply List.Forall_forall. exact Hmin. }
        fold best in Hin, Hle, Hmax.
        assert (Hin' : In best (first :: rest))
          by (destruct Hin as [<-|Hin]; [left; reflexivity|exact Hin]).
        exists best. split; [exact Hin'|]. split; [reflexivity|].
        split; [intros [e [He Hy]]; exfalso; apply (Hno e He Hy)|].
        split.
        -- intros _ _. split.
           ++ specialize (Hno best Hin'). lia.
           ++ intros e He Hey. apply Hmax; [right; exact He|exact Hey].
        -- intros Hall. specialize (Hall first (or_introl eq_refl)). lia.
  - intros pg rnd n Hc Hn.
    destruct (drawOutput_head pg rnd n Hc) as [_ [extra ->]].
    rewrite Hn. split; apply in_or_app; left; cbn; tauto.
Qed.

Lemma getCurrentScore_nearest_year_witness :
  exists d,
    In d [mkEntry 1990 (1 # 3); mkEntry 2000 (1 # 2)] /\
    getCurrentScore
      (parseCSV [mkRow "Norway" (Some 2000%Z) (Some (1 # 2));
                 mkRow "Norway" (Some 1990%Z) (Some (1 # 3))] ∅)
      "Norway" (Some 1995%Z) = Some (score d) /\
    ((exists e, In e [mkEntry 1990 (1 # 3); mkEntry 2000 (1 # 2)] /\ year e = 1995%Z) ->
     year d = 1995%Z) /\
    ((forall e, In e [mkEntry 1990 (1 # 3); mkEntry 2000 (1 # 2)] -> year e <> 1995%Z) ->
     (exists e, In e [mkEntry 1990 (1 # 3); mkEntry 2000 (1 # 2)] /\ (year e < 1995)%Z) ->
     (year d < 1995)%Z /\
     forall e, In e [mkEntry 1990 (1 # 3); mkEntry 2000 (1 # 2)] ->
               (year e <= 1995)%Z -> (year e <= year d)%Z) /\
    ((forall e, In e [mkEntry 1990 (1 # 3); mkEntry 2000 (1 # 2)] -> (1995 < year e)%Z) ->
     head [mkEntry 1990 (1 # 3); mkEntry 2000 (1 # 2)] = Some d /\
     forall e, In e [mkEntry 1990 (1 # 3); mkEntry 2000 (1 # 2)] ->
               (year d <= year e)%Z).
Proof.
  apply (proj1 (proj2 (proj2 getCurrentScore_nearest_year))).
  - vm_compute. reflexivity.
  - discriminate.
  - repeat constructor. cbn. lia.
Defined.

(** * Further properties of the score mapping *)

Lemma lerp_between (lo hi t : Q) :
  0 <= t <= 1 ->
  Qmin lo hi <= lerp lo hi t <= Qmax lo hi.
Proof.
  intros [H0 H1]. unfold lerp.
  destruct (Qlt_le_dec lo hi) as [H|H].
  - rewrite (Q.min_l lo hi), (Q.max_r lo hi) by lra. split; nra.
  - rewrite (Q.min_r lo hi), (Q.max_l lo hi) by lra. split; nra.
Qed.

(** X1. The distortion level is between 0 and 1 for every score, in
    range or not. *)
Theorem scoreToDistortion_range (score : Q) :
  0 <= scoreToDistortion score <= 1.
Proof.
  unfold scoreToDistortion. pose proof (clamp_range score). lra.
Qed.

(** X2. For every score the color is a valid RGB triple: red within
    20..220, green within 40..210, blue within 40..120. *)
Theorem scoreToColor_range (score : Q) :
  (20 <= r (scoreToColor score) <= 220)%Z /\
  (40 <= g (scoreToColor score) <= 210)%Z /\
  (40 <= b (scoreToColor score) <= 120)%Z.
Proof.
  unfold scoreToColor. cbn [r g b].
  pose proof (clamp_range score) as Hs.
  set (s := Math_max 0 (Math_min 1 score)) in *.
  pose proof (lerp_between 220 20 s Hs) as Hr.
  pose proof (lerp_between 40 210 s Hs) as Hg.
  pose proof (lerp_between 40 120 s Hs) as Hb.
  change (Qmin 220 20) with 20 in Hr. change (Qmax 220 20) with 220 in Hr.
  change (Qmin 40 210) with 40 in Hg. change (Qmax 40 210) with 210 in Hg.
  change (Qmin 40 120) with 40 in Hb. change (Qmax 40 120) with 120 in Hb.
  pose proof (Math_round_mono 20 (lerp 220 20 s) (proj1 Hr)) as R1.
  pose proof (Math_round_mono (lerp 220 20 s) 220 (proj2 Hr)) as R2.
  pose proof (Math_round_mono 40 (lerp 40 210 s) (proj1 Hg)) as G1.
  pose proof (Math_round_mono (lerp 40 210 s) 210 (proj2 Hg)) as G2.
  pose proof (Math_round_mono 40 (lerp 40 120 s) (proj1 Hb)) as B1.
  pose proof (Math_round_mono (lerp 40 120 s) 120 (proj2 Hb)) as B2.
  change (Math_round 20) with 20%Z in R1. change (Math_round 220) with 220%Z in R2.
  change (Math_round 40) with 40%Z in G1, B1.
  change (Math_round 210) with 210%Z in G2. change (Math_round 120) with 120%Z in B2.
  lia.
Qed.

(** * Further properties of the data and the score lookup *)

Lemma addRow_lookup (data : gmap string (list Entry)) (row : Row) (c : string) :
  addRow data row !! c =
  match rowEntry c row with
  | [] => data !! c
  | es => Some (default [] (data !! c) ++ es)
  end.
Proof.
  unfold addRow, rowEntry.
  destruct (rowCountry row) as [|c0 s0]; [reflexivity|].
  destruct (rowYear row) as [yr|]; [|reflexivity].
  destruct (rowScore row) as [sc|]; [|reflexivity].
  destruct (String.eqb_spec (String c0 s0) c) as [<-|Hne].
  - rewrite lookup_insert_eq.
    destruct (data !! String c0 s0) as [arr|] eqn:E.
    + rewrite E. reflexivity.
    + rewrite lookup_insert_eq. reflexivity.
  - rewrite lookup_insert_ne by exact Hne.
    destruct (data !! String c0 s0); [reflexivity|].
    rewrite lookup_insert_ne by exact Hne. reflexivity.
Qed.

Lemma addRows_lookup (rows : list Row) (c : string) :
  forall data : gmap string (list Entry),
    fold_left addRow rows data !! c =
    match data !! c, validEntries c rows with
    | None, [] => None
    | o, es => Some (default [] o ++ es)
    end.
Proof.
  unfold validEntries.
  induction rows as [|row rows IH]; intros data; cbn [fold_left flat_map].
  - destruct (data !! c); cbn [default]; [rewrite app_nil_r|]; reflexivity.
  - rewrite IH, addRow_lookup.
    destruct (rowEntry c row) as [|e es] eqn:Er; cbn [app].
    + reflexivity.
    + destruct (data !! c) as [arr|]; cbn; rewrite <- ?app_assoc; reflexivity.
Qed.

Lemma parseCSV_lookup (rows : list Row) (c : string) :
  parseCSV rows ∅ !! c =
  match validEntries c rows with
  | [] => None
  | es => Some (sortByYear es)
  end.
Proof.
  unfold parseCSV. rewrite lookup_fmap, addRows_lookup, lookup_empty.
  destruct (validEntries c rows); reflexivity.
Qed.

Lemma insertByYear_perm (e : Entry) (arr : list Entry) :
  Permutation (insertByYear e arr) (e :: arr).
Proof.
  induction arr as [|d arr IH]; cbn [insertByYear]; [reflexivity|].
  destruct (year e <=? year d)%Z; [reflexivity|].
  rewrite IH. apply perm_swap.
Qed.

Lemma sortByYear_perm (arr : list Entry) : Permutation (sortByYear arr) arr.
Proof.
  unfold sortByYear. induction arr as [|d arr IH]; cbn [fold_right]; [reflexivity|].
  rewrite insertByYear_perm. apply perm_skip, IH.
Qed.

Lemma insertByYear_same_year (y : Z) (e : Entry) (arr : list Entry) :
  List.filter (hasYear y) (insertByYear e arr) =
  List.filter (hasYear y) (e :: arr).
Proof.
  induction arr as [|d arr IH]; cbn [insertByYear]; [reflexivity|].
  destruct (Z.leb_spec (year e) (year d)) as [H|H]; [reflexivity|].
  cbn [List.filter] in *. rewrite IH.
  unfold hasYear.
  destruct (Z.eqb_spec (year e) y), (Z.eqb_spec (year d) y); try reflexivity.
  lia.
Qed.

Lemma sortByYear_same_year (y : Z) (arr : list Entry) :
  List.filter (hasYear y) (sortByYear arr) = List.filter (hasYear y) arr.
Proof.
  unfold sortByYear. induction arr as [|d arr IH]; cbn [fold_right]; [reflexivity|].
  rewrite insertByYear_same_year. cbn [List.filter]. rewrite IH. reflexivity.
Qed.

Lemma find_filter (p : Entry -> bool) (arr : list Entry) :
  List.find p arr = head (List.filter p arr).
Proof.
  induction arr as [|d arr IH]; cbn [List.find List.filter]; [reflexivity|].
  destruct (p d); [reflexivity|exact IH].
Qed.

(** X4. What [parseCSV] stores for a country is a rearrangement of the
    entries of that country's valid rows, in ascending order of year,
    entries of the same year keeping the order of the rows; a country
    without a valid row gets no array at all. *)
Theorem parseCSV_groups_rows (rows : list Row) (country : string) :
  (validEntries country rows = [] -> parseCSV rows ∅ !! country = None) /\
  (forall arr,
     parseCSV rows ∅ !! country = Some arr ->
     Permutation arr (validEntries country rows) /\
     ascending arr /\
     forall y,
       List.filter (hasYear y) arr =
       List.filter (hasYear y) (validEntries country rows)).
Proof.
  rewrite parseCSV_lookup. split.
  - intros ->. reflexivity.
  - intros arr H. destruct (validEntries country rows) as [|e es]; [discriminate|].
    injection H as <-. split; [exact (sortByYear_perm (e :: es))|].
    split; [exact (sortByYear_ascending (e :: es))|].
    intros y. exact (sortByYear_same_year y (e :: es)).
Qed.

Lemma parseCSV_groups_rows_witness :
  parseCSV [mkRow "" (Some 1999%Z) (Some (1 # 2));
            mkRow "Chile" None (Some (1 # 2))] ∅ !! "Chile"%string = None.
Proof.
  apply (proj1 (parseCSV_groups_rows
                  [mkRow "" (Some 1999%Z) (Some (1 # 2));
                   mkRow "Chile" None (Some (1 # 2))] "Chile")).
  reflexivity.
Defined.

(** X5. A row that is the first valid row of its country and year is
    found again: [getCurrentScore], on the data [parseCSV] built, returns
    its score for that country and year. *)
Theorem parseCSV_then_lookup (rows : list Row) (country : string) (y : Z) (d : Entry) :
  List.find (hasYear y) (validEntries country rows) = Some d ->
  getCurrentScore (parseCSV rows ∅) country (Some y) = Some (score d).
Proof.
  intros Hf. unfold getCurrentScore. rewrite parseCSV_lookup.
  destruct (validEntries country rows) as [|e es] eqn:Ev; [discriminate|].
  destruct (sortByYear (e :: es)) as [|first rest] eqn:Es.
  - exfalso. apply (sortByYear_nonempty (e :: es)); [discriminate|exact Es].
  - change (fun d0 : Entry => year_is d0 (Some y)) with (hasYear y).
    rewrite <- Es, find_filter, sortByYear_same_year, <- find_filter, Hf.
    reflexivity.
Qed.

Lemma parseCSV_then_lookup_witness :
  getCurrentScore
    (parseCSV [mkRow "Chile" (Some 2001%Z) (Some (3 # 4));
               mkRow "Chile" (Some 1999%Z) (Some (1 # 4));
               mkRow "Chile" (Some 2001%Z) (Some (1 # 8))] ∅)
    "Chile" (Some 2001%Z) = Some (3 # 4).
Proof.
  apply (parseCSV_then_lookup
           [mkRow "Chile" (Some 2001%Z) (Some (3 # 4));
            mkRow "Chile" (Some 1999%Z) (Some (1 # 4));
            mkRow "Chile" (Some 2001%Z) (Some (1 # 8))]
           "Chile" 2001 (mkEntry 2001 (3 # 4))).
  reflexivity.
Defined.

Lemma best_in (yr : option Z) (l : list Entry) :
  forall b0 : Entry,
    In (fold_left
          (fun best d =>
             if year_le d yr && (year best <=? year d)%Z then d else best)
          l b0) (b0 :: l).
Proof.
  induction l as [|d l IH]; intros b0; cbn [fold_left]; [left; reflexivity|].
  destruct (year_le d yr && (year b0 <=? year d)%Z).
  - right. apply IH.
  - destruct (IH b0) as [H|H]; [left; exact H|right; right; exact H].
Qed.

Lemma best_nan (l : list Entry) :
  forall b0 : Entry,
    fold_left
      (fun best d =>
         if year_le d None && (year best <=? year d)%Z then d else best)
      l b0 = b0.
Proof. induction l as [|d l IH]; intros b0; cbn; [reflexivity|apply IH]. Qed.

Lemma find_nan (l : list Entry) : List.find (fun d => year_is d None) l = None.
Proof. induction l as [|d l IH]; cbn; [reflexivity|exact IH]. Qed.

(** X6. Whatever the data and the year, sorted or not, a score that
    [getCurrentScore] returns is the score of an entry of the country's
    array; and for a year that is not a number it is the score of the
    array's first entry. *)
Theorem getCurrentScore_from_array (data : gmap string (list Entry)) (country : string) :
  (forall yr v,
     getCurrentScore data country yr = Some v ->
     exists arr d, data !! country = Some arr /\ In d arr /\ v = score d) /\
  (forall first rest,
     data !! country = Some (first :: rest) ->
     getCurrentScore data country None = Some (score first)).
Proof.
  split.
  - intros yr v. unfold getCurrentScore.
    destruct (data !! country) as [[|first rest]|]; try discriminate.
    destruct (List.find _ _) as [exact|] eqn:Ef.
    + intros [= <-]. apply find_some in Ef.
      exists (first :: rest), exact. tauto.
    + intros [= <-]. eexists _, _. split; [reflexivity|]. split; [|reflexivity].
      pose proof (best_in yr (first :: rest) first) as H.
      destruct H as [H|H]; [left; exact H|exact H].
  - intros first rest H. unfold getCurrentScore. rewrite H, find_nan, best_nan.
    reflexivity.
Qed.

Lemma getCurrentScore_from_array_witness :
  getCurrentScore {[ "Chile"%string := [mkEntry 2001 (3 # 4); mkEntry 1999 (1 # 4)] ]}
    "Chile" None = Some (3 # 4).
Proof.
  apply (proj2 (getCurrentScore_from_array
                  {[ "Chile"%string := [mkEntry 2001 (3 # 4); mkEntry 1999 (1 # 4)] ]}
                  "Chile") (mkEntry 2001 (3 # 4)) [mkEntry 1999 (1 # 4)]).
  vm_compute. reflexivity.
Defined.

Lemma getCurrentScore_at_or_before (data : gmap string (list Entry))
    (country : string) (arr : list Entry) (y : Z) :
  data !! country = Some arr ->
  ascending arr ->
  (exists e, In e arr /\ (year e <= y)%Z) ->
  exists d,
    In d arr /\
    getCurrentScore data country (Some y) = Some (score d) /\
    (year d <= y)%Z /\
    forall e, In e arr -> (year e <= y)%Z -> (year e <= year d)%Z.
Proof.
  intros Hd Hs [e0 [He0 Hle0]]. unfold getCurrentScore. rewrite Hd.
  destruct arr as [|first rest]; [destruct He0|].
  assert (Hmin : forall e, In e (first :: rest) -> (year first <= year e)%Z).
  { pose proof Hs as Hs'. apply StronglySorted_inv in Hs'. destruct Hs' as [_ Hf].
    rewrite List.Forall_forall in Hf.
    intros e [<-|He]; [lia|apply Hf, He]. }
  destruct (List.find (fun d => year_is d (Some y)) (first :: rest)) as [exact|] eqn:Ef.
  - apply find_some in Ef. destruct Ef as [Hin Hy].
    cbn [year_is] in Hy. apply Z.eqb_eq in Hy.
    exists exact. split; [exact Hin|]. split; [reflexivity|]. split; [lia|].
    intros e _ He. lia.
  - assert (Hge : (year first <= y)%Z) by (specialize (Hmin e0 He0); lia).
    destruct (best_latest y (first :: rest) first Hge Hs) as [Hin [Hle Hmax]].
    { apply List.Forall_forall. exact Hmin. }
    eexists. split; [|split; [reflexivity|split; [exact Hle|]]].
    + destruct Hin as [<-|Hin]; [left; reflexivity|exact Hin].
    + intros e He Hey. apply Hmax; [right; exact He|exact Hey].
Qed.

Lemma last_default (l : list Entry) :
  forall a d1 d2 : Entry, List.last (a :: l) d1 = List.last (a :: l) d2.
Proof.
  induction l as [|b l IH]; intros a d1 d2; [reflexivity|].
  change (List.last (b :: l) d1 = List.last (b :: l) d2). apply IH.
Qed.

Lemma last_latest (first : Entry) (rest : list Entry) :
  ascending (first :: rest) ->
  In (List.last (first :: rest) first) (first :: rest) /\
  forall d, In d (first :: rest) ->
            (year d <= year (List.last (first :: rest) first))%Z.
Proof.
  unfold ascending. revert first.
  induction rest as [|d0 rest IH]; intros first Hs.
  - cbn. split; [left; reflexivity|]. intros d [<-|[]]. lia.
  - apply StronglySorted_inv in Hs. destruct Hs as [Hs Hf].
    destruct (IH d0 Hs) as [Hin Hmax].
    assert (E : List.last (first :: d0 :: rest) first = List.last (d0 :: rest) d0).
    { change (List.last (d0 :: rest) first = List.last (d0 :: rest) d0).
      apply last_default. }
    rewrite E. split; [right; exact Hin|].
    intros d [<-|Hd]; [|apply Hmax, Hd].
    rewrite List.Forall_forall in Hf.
    specialize (Hf _ Hin). exact Hf.
Qed.

(** X7. [updateYearSliderForCountry] leaves everything as it is for a
    country without data.  For a country whose array is in ascending
    order it sets the slider to span exactly the recorded years, from the
    earliest to the latest, and selects the latest; and for every year in
    that span [getCurrentScore] returns the score of an entry of the
    latest recorded year that is not after it. *)
Theorem updateYearSlider_span (pg : Page) (country : string) :
  (dataByCountry pg !! country = None \/ dataByCountry pg !! country = Some [] ->
   updateYearSliderForCountry pg country = (pg, [])) /\
  (forall arr,
     dataByCountry pg !! country = Some arr -> arr <> [] -> ascending arr ->
     exists lo hi,
       updateYearSliderForCountry pg country =
       (setCurrentYear pg (Some hi) (String_of_Z hi),
        [ SliderMin lo; SliderMax hi; SliderValue hi;
          YearMinLabel (String_of_Z lo);
          YearMaxLabel (String_of_Z hi);
          YearValueLabel (String_of_Z hi) ]) /\
       (exists d, In d arr /\ year d = lo) /\
       (exists d, In d arr /\ year d = hi) /\
       (forall d, In d arr -> (lo <= year d <= hi)%Z) /\
       forall y, (lo <= y <= hi)%Z ->
         exists d,
           In d arr /\
           getCurrentScore (dataByCountry pg) country (Some y) = Some (score d) /\
           (year d <= y)%Z /\
           forall e, In e arr -> (year e <= y)%Z -> (year e <= year d)%Z).
Proof.
  split.
  - unfold updateYearSliderForCountry. intros [-> | ->]; reflexivity.
  - intros arr Hd Hne Hs. unfold updateYearSliderForCountry. rewrite Hd.
    destruct arr as [|first rest]; [contradiction|].
    destruct (last_latest first rest Hs) as [Hin Hmax].
    exists (year first), (year (List.last (first :: rest) first)).
    split; [reflexivity|].
    split; [exists first; split; [left|]; reflexivity|].
    split; [eexists; split; [exact Hin|reflexivity]|].
    assert (Hmin : forall d, In d (first :: rest) -> (year first <= year d)%Z).
    { pose proof Hs as Hs'. apply StronglySorted_inv in Hs'. destruct Hs' as [_ Hf].
      rewrite List.Forall_forall in Hf.
      intros e [<-|He]; [lia|apply Hf, He]. }
    split; [intros d Hd'; split; [apply Hmin|apply Hmax]; exact Hd'|].
    intros y Hy. apply (getCurrentScore_at_or_before _ _ _ _ Hd Hs).
    exists first. split; [left; reflexivity|lia].
Qed.

Lemma updateYearSlider_span_witness :
  exists lo hi,
    updateYearSliderForCountry samplePage "Chile" =
    (setCurrentYear samplePage (Some hi) (String_of_Z hi),
     [ SliderMin lo; SliderMax hi; SliderValue hi;
       YearMinLabel (String_of_Z lo);
       YearMaxLabel (String_of_Z hi);
       YearValueLabel (String_of_Z hi) ]) /\
    (exists d, In d [mkEntry 1999 (1 # 4); mkEntry 2001 (3 # 4)] /\ year d = lo) /\
    (exists d, In d [mkEntry 1999 (1 # 4); mkEntry 2001 (3 # 4)] /\ year d = hi) /\
    (forall d, In d [mkEntry 1999 (1 # 4); mkEntry 2001 (3 # 4)] ->
               (lo <= year d <= hi)%Z) /\
    forall y, (lo <= y <= hi)%Z ->
      exists d,
        In d [mkEntry 1999 (1 # 4); mkEntry 2001 (3 # 4)] /\
        getCurrentScore (dataByCountry samplePage) "Chile" (Some y) = Some (score d) /\
        (year d <= y)%Z /\
        forall e, In e [mkEntry 1999 (1 # 4); mkEntry 2001 (3 # 4)] ->
                  (year e <= y)%Z -> (year e <= year d)%Z.
Proof.
  apply (proj2 (updateYearSlider_span samplePage "Chile")).
  - vm_compute. reflexivity.
  - discriminate.
  - repeat constructor. cbn. lia.
Defined.

(** * The year slider and the handlers *)

Lemma selectedYear_read_back (pg : Page) (s : string) :
  selectedYear (setCurrentYear pg (parseInt s) s) = parseInt s.
Proof.
  unfold selectedYear, setCurrentYear. cbn [currentYear yearSlider_value].
  destruct (parseInt s) as [v|]; [|reflexivity].
  destruct (v =? 0)%Z; reflexivity.
Qed.

Lemma parseCSV_key_truthy (rows : list Row) (c : string) (arr : list Entry) :
  parseCSV rows ∅ !! c = Some arr -> truthy c = true.
Proof.
  rewrite parseCSV_lookup. destruct c; [|reflexivity].
  replace (validEntries EmptyString rows) with (@nil Entry); [discriminate|].
  unfold validEntries. induction rows as [|row rows IH]; [reflexivity|].
  cbn [flat_map]. rewrite <- IH.
  unfold rowEntry. destruct (rowCountry row); [reflexivity|].
  destruct (rowYear row); [|reflexivity]. destruct (rowScore row); reflexivity.
Qed.

Lemma shown_effects (pg : Page) (rnd : RandomSource) (n : nat) :
  truthy (selectedCountry pg) = true ->
  let out := fst (drawOutput pg rnd n) in
  In (PanelCountry (selectedCountry pg)) out /\
  In (PanelYear (selectedYear pg)) out /\
  In (PanelScore (shownScore pg)) out /\
  In (Background (scoreToColor (shownScore pg))) out /\
  In (Blur (scoreToDistortion (shownScore pg) * MAX_BLUR_PX)) out.
Proof.
  intros Hc out. subst out.
  destruct (drawOutput_head pg rnd n Hc) as [_ [extra ->]].
  fold (shownScore pg).
  repeat split; apply in_or_app; left; cbn; tauto.
Qed.

(** X9. Choosing a country that has data selects that country and its
    latest recorded year, and the panel then shows that year and the
    clamped score of an entry of that year. *)
Theorem onCountryChange_latest (pg : Page) (rows : list Row) (arr : list Entry)
    (rnd : RandomSource) (n : nat) :
  dataByCountry pg = parseCSV rows ∅ ->
  parseCSV rows ∅ !! countrySelect_value pg = Some arr ->
  let pg2 := fst (fst (onCountryChange pg rnd n)) in
  let writes := snd (fst (onCountryChange pg rnd n)) in
  let out := fst (snd (onCountryChange pg rnd n)) in
  exists d,
    In d arr /\
    (forall e, In e arr -> (year e <= year d)%Z) /\
    currentCountry pg2 = Some (countrySelect_value pg) /\
    currentYear pg2 = Some (year d) /\
    In (SliderValue (year d)) writes /\
    In (PanelCountry (countrySelect_value pg)) out /\
    In (PanelYear (Some (year d))) out /\
    In (PanelScore (Math_max 0 (Math_min 1 (score d)))) out.
Proof.
  intros Hdata Harr pg2 writes out.
  destruct (parseCSV_arrays rows _ _ Harr) as [Hne Hs].
  pose proof (parseCSV_key_truthy rows _ _ Harr) as Ht.
  set (c := countrySelect_value pg) in *.
  set (pg1 := setCurrentCountry pg (Some c)).
  assert (Hd1 : dataByCountry pg1 !! c = Some arr) by (cbn; rewrite Hdata; exact Harr).
  destruct arr as [|first rest]; [contradiction|].
  destruct (last_latest first rest Hs) as [Hin Hmax].
  set (hi := year (List.last (first :: rest) first)) in *.
  assert (E : onCountryChange pg rnd n =
              (setCurrentYear pg1 (Some hi) (String_of_Z hi),
               [ SliderMin (year first); SliderMax hi; SliderValue hi;
                 YearMinLabel (String_of_Z (year first));
                 YearMaxLabel (String_of_Z hi);
                 YearValueLabel (String_of_Z hi) ],
               drawOutput (setCurrentYear pg1 (Some hi) (String_of_Z hi)) rnd n)).
  { unfold onCountryChange, updateYearSliderForCountry. fold c. fold pg1.
    rewrite Hd1. reflexivity. }
  subst pg2 writes out. rewrite E. cbn [fst snd].
  set (pg2 := setCurrentYear pg1 (Some hi) (String_of_Z hi)).
  assert (Hc2 : selectedCountry pg2 = c).
  { unfold selectedCountry. cbn. rewrite Ht. reflexivity. }
  assert (Hy2 : selectedYear pg2 = Some hi).
  { unfold pg2, selectedYear, setCurrentYear. cbn [currentYear yearSlider_value].
    destruct (Z.eqb_spec hi 0) as [E0|_]; [rewrite E0|]; reflexivity. }
  destruct (getCurrentScore_at_or_before (dataByCountry pg2) c (first :: rest) hi Hd1 Hs)
    as [d [Hd [Hg [Hle Hge]]]].
  { eexists. split; [exact Hin|]. fold hi. lia. }
  assert (Hyd : year d = hi).
  { specialize (Hge _ Hin). specialize (Hmax d Hd). fold hi in Hge, Hmax. lia. }
  assert (Ht2 : truthy (selectedCountry pg2) = true) by (rewrite Hc2; exact Ht).
  destruct (shown_effects pg2 rnd n Ht2) as [P1 [P2 [P3 _]]].
  unfold shownScore in P3. rewrite Hc2 in P1, P3. rewrite Hy2 in P2, P3.
  rewrite Hg in P3.
  exists d. rewrite Hyd.
  split; [exact Hd|]. split; [intros e He; fold hi in Hmax; apply Hmax, He|].
  split; [reflexivity|]. split; [reflexivity|].
  split; [cbn; tauto|]. split; [exact P1|]. split; [exact P2|exact P3].
Qed.

Lemma onCountryChange_latest_witness :
  exists d,
    In d [mkEntry 1999 (1 # 4); mkEntry 2001 (3 # 4)] /\
    (forall e, In e [mkEntry 1999 (1 # 4); mkEntry 2001 (3 # 4)] ->
               (year e <= year d)%Z) /\
    currentCountry (fst (fst (onCountryChange samplePage (fun _ => 1 # 3) 0))) =
      Some (countrySelect_value samplePage) /\
    currentYear (fst (fst (onCountryChange samplePage (fun _ => 1 # 3) 0))) =
      Some (year d) /\
    In (SliderValue (year d))
       (snd (fst (onCountryChange samplePage (fun _ => 1 # 3) 0))) /\
    In (PanelCountry (countrySelect_value samplePage))
       (fst (snd (onCountryChange samplePage (fun _ => 1 # 3) 0))) /\
    In (PanelYear (Some (year d)))
       (fst (snd (onCountryChange samplePage (fun _ => 1 # 3) 0))) /\
    In (PanelScore (Math_max 0 (Math_min 1 (score d))))
       (fst (snd (onCountryChange samplePage (fun _ => 1 # 3) 0))).
Proof.
  apply (onCountryChange_latest samplePage sampleRows
           [mkEntry 1999 (1 # 4); mkEntry 2001 (3 # 4)] (fun _ => 1 # 3) 0).
  - reflexivity.
  - vm_compute. reflexivity.
Defined.

Lemma getCurrentScore_nan (data : gmap string (list Entry)) (country : string)
    (first : Entry) (rest : list Entry) :
  data !! country = Some (first :: rest) ->
  getCurrentScore data country None = Some (score first).
Proof.
  intros H. unfold getCurrentScore. rewrite H, find_nan, best_nan. reflexivity.
Qed.

(** X10. The slider handler takes the year from the slider.  With a
    country selected whose array is in ascending order, and a slider year
    not before the earliest recorded year, the panel shows that year and
    the clamped score of an entry of the latest recorded year that is not
    after it; when the slider's value is not a number the panel shows the
    clamped score of the first entry. *)
Theorem onYearInput_shows (pg : Page) (arr : list Entry) (rnd : RandomSource) (n : nat) :
  truthy (selectedCountry pg) = true ->
  dataByCountry pg !! selectedCountry pg = Some arr ->
  ascending arr ->
  let pg1 := fst (fst (onYearInput pg rnd n)) in
  let out := fst (snd (onYearInput pg rnd n)) in
  currentYear pg1 = parseInt (yearSlider_value pg) /\
  In (PanelYear (parseInt (yearSlider_value pg))) out /\
  (forall y,
     parseInt (yearSlider_value pg) = Some y ->
     (exists e, In e arr /\ (year e <= y)%Z) ->
     exists d,
       In d arr /\ (year d <= y)%Z /\
       (forall e, In e arr -> (year e <= y)%Z -> (year e <= year d)%Z) /\
       In (PanelScore (Math_max 0 (Math_min 1 (score d)))) out) /\
  (forall first rest,
     parseInt (yearSlider_value pg) = None ->
     arr = first :: rest ->
     In (PanelScore (Math_max 0 (Math_min 1 (score first)))) out).
Proof.
  intros Ht Hd Hs pg1 out. subst pg1 out. unfold onYearInput. cbn [fst snd].
  set (pg1 := setCurrentYear pg (parseInt (yearSlider_value pg)) (yearSlider_value pg)).
  assert (Hc1 : selectedCountry pg1 = selectedCountry pg) by reflexivity.
  assert (Hy1 : selectedYear pg1 = parseInt (yearSlider_value pg))
    by apply selectedYear_read_back.
  assert (Ht1 : truthy (selectedCountry pg1) = true) by (rewrite Hc1; exact Ht).
  destruct (shown_effects pg1 rnd n Ht1) as [_ [P2 [P3 _]]].
  unfold shownScore in P3. rewrite Hc1 in P3. rewrite Hy1 in P2, P3.
  change (dataByCountry pg1) with (dataByCountry pg) in P3.
  split; [reflexivity|]. split; [exact P2|]. split.
  - intros y Hy He. rewrite Hy in P3.
    destruct (getCurrentScore_at_or_before _ _ _ y Hd Hs He) as [d [Hin [Hg [Hle Hmax]]]].
    rewrite Hg in P3. exists d. tauto.
  - intros first rest Hy ->. rewrite Hy in P3.
    rewrite (getCurrentScore_nan _ _ _ _ Hd) in P3. exact P3.
Qed.

Lemma onYearInput_shows_witness :
  currentYear
    (fst (fst (onYearInput (setCurrentCountry samplePage (Some "Chile"%string))
                 (fun _ => 1 # 3) 0))) =
  parseInt (yearSlider_value (setCurrentCountry samplePage (Some "Chile"%string))).
Proof.
  refine (proj1 (onYearInput_shows
                   (setCurrentCountry samplePage (Some "Chile"%string))
                   [mkEntry 1999 (1 # 4); mkEntry 2001 (3 # 4)]
                   (fun _ => 1 # 3) 0 _ _ _)).
  - reflexivity.
  - vm_compute. reflexivity.
  - repeat constructor. cbn. lia.
Defined.

(** * Further properties of the path distortion *)

Lemma distortPath_cases (path : Path) (level : Q) (rnd : RandomSource) (n : nat) :
  distortPath path level rnd n = (path, n) \/
  (0 < level /\
   (0 < Math_round (level * MAX_EXTRA_POINTS))%Z /\
   distortPath path level rnd n =
   ({| commands :=
         concat (blocks (Math_round (level * MAX_EXTRA_POINTS)) level rnd (0, 0) n
                   (commands path)) |},
    (n + 2 * Z.to_nat (Math_round (level * MAX_EXTRA_POINTS)) *
         countSubdivided (commands path))%nat)).
Proof.
  destruct (Qlt_le_dec 0 level) as [Hl|Hl].
  - destruct (Z.lt_ge_cases 0 (Math_round (level * MAX_EXTRA_POINTS))) as [He|He].
    + right. split; [exact Hl|]. split; [exact He|].
      apply distortPath_blocks; assumption.
    + left. unfold distortPath. destruct (Qle_bool level 0); [reflexivity|].
      apply Z.leb_le in He. rewrite He. reflexivity.
  - left. unfold distortPath. apply Qle_bool_iff in Hl. rewrite Hl. reflexivity.
Qed.

Section BlockFacts.

Variables (extraPoints : Z) (level : Q) (rnd : RandomSource).

Lemma block_not_lines (p : Q * Q) (n0 : nat) (c : PathCommand) :
  List.filter (fun q => negb (isLineTo q)) (block extraPoints level rnd p n0 c) =
  List.filter (fun q => negb (isLineTo q)) [c].
Proof.
  unfold block. rewrite List.filter_app.
  replace (List.filter _ (if subdivided c then _ else [])) with (@nil PathCommand);
    [reflexivity|].
  destruct (subdivided c); [|reflexivity].
  induction (seq 0 (Z.to_nat extraPoints)) as [|j l IH]; [reflexivity|].
  cbn [map List.filter]. exact IH.
Qed.

Lemma blocks_not_lines (cs : list PathCommand) :
  forall (p : Q * Q) (n0 : nat),
    List.filter (fun q => negb (isLineTo q))
      (concat (blocks extraPoints level rnd p n0 cs)) =
    List.filter (fun q => negb (isLineTo q)) cs.
Proof.
  induction cs as [|c cs IH]; intros p n0; cbn [blocks concat]; [reflexivity|].
  rewrite List.filter_app, block_not_lines, IH.
  cbn [List.filter]. destruct (negb (isLineTo c)); reflexivity.
Qed.

Lemma blocks_sublist (cs : list PathCommand) :
  forall (p : Q * Q) (n0 : nat),
    sublist cs (concat (blocks extraPoints level rnd p n0 cs)).
Proof.
  induction cs as [|c cs IH]; intros p n0; cbn [blocks concat]; [constructor|].
  unfold block. rewrite <- app_assoc. apply sublist_inserts_l.
  cbn [app]. apply sublist_skip, IH.
Qed.

Lemma block_cursor (p : Q * Q) (n0 : nat) (c : PathCommand) :
  fold_left cursorAfter (block extraPoints level rnd p n0 c) p = cursorAfter p c.
Proof.
  unfold block. rewrite fold_left_app. cbn [fold_left].
  destruct c; cbn [subdivided]; reflexivity.
Qed.

Lemma blocks_cursor (cs : list PathCommand) :
  forall (p : Q * Q) (n0 : nat),
    fold_left cursorAfter (concat (blocks extraPoints level rnd p n0 cs)) p =
    fold_left cursorAfter cs p.
Proof.
  induction cs as [|c cs IH]; intros p n0; cbn [blocks concat fold_left]; [reflexivity|].
  rewrite fold_left_app, block_cursor. apply IH.
Qed.

Lemma blocks_plain (cs : list PathCommand) :
  countSubdivided cs = 0%nat ->
  forall (p : Q * Q) (n0 : nat),
    concat (blocks extraPoints level rnd p n0 cs) = cs.
Proof.
  unfold countSubdivided.
  induction cs as [|c cs IH]; intros H p n0; cbn [blocks concat]; [reflexivity|].
  cbn [List.filter] in H. unfold block.
  destruct (subdivided c); [discriminate|].
  cbn [app]. f_equal. apply IH, H.
Qed.

End BlockFacts.

Lemma countSubdivided_le (cs : list PathCommand) : (countSubdivided cs <= length cs)%nat.
Proof.
  unfold countSubdivided. induction cs as [|c cs IH]; cbn [List.filter length]; [lia|].
  destruct (subdivided c); cbn [length]; lia.
Qed.

(** X11. [distortPath] only adds commands: with [extraPoints] above 0 the
    output has [extraPoints] more commands for every [LineTo],
    [QuadraticTo] and [CubicTo] of the input; it is never shorter than the
    input, and for a level of at most 1 never longer than eleven times
    the input. *)
Theorem distortPath_length (path : Path) (level : Q) (rnd : RandomSource) (n : nat) :
  let out := commands (fst (distortPath path level rnd n)) in
  (0 < level -> (0 < Math_round (level * MAX_EXTRA_POINTS))%Z ->
   length out =
   (length (commands path) +
    Z.to_nat (Math_round (level * MAX_EXTRA_POINTS)) *
    countSubdivided (commands path))%nat) /\
  (length (commands path) <= length out)%nat /\
  (level <= 1 -> (length out <= 11 * length (commands path))%nat).
Proof.
  intros out. subst out. split; [|split].
  - intros Hl He. rewrite distortPath_blocks by assumption.
    cbn [fst commands]. apply length_concat_blocks.
  - destruct (distortPath_cases path level rnd n) as [->|[_ [_ ->]]]; cbn [fst commands].
    + lia.
    + rewrite length_concat_blocks. lia.
  - intros H1.
    destruct (distortPath_cases path level rnd n) as [->|[Hl [He ->]]]; cbn [fst commands].
    + lia.
    + rewrite length_concat_blocks.
      assert (Hep : (Math_round (level * MAX_EXTRA_POINTS) <= 10)%Z).
      { change 10%Z with (Math_round 10). apply Math_round_mono.
        unfold MAX_EXTRA_POINTS. lra. }
      pose proof (countSubdivided_le (commands path)). nia.
Qed.

Lemma distortPath_length_witness :
  length (commands (fst (distortPath
                           (mkPath [MoveTo 0 0; LineTo 3 4; CubicTo 1 1 2 2 5 6; ClosePath])
                           (1 # 5) (fun _ => 1 # 3) 0))) = 8%nat.
Proof.
  refine (proj1 (distortPath_length
                   (mkPath [MoveTo 0 0; LineTo 3 4; CubicTo 1 1 2 2 5 6; ClosePath])
                   (1 # 5) (fun _ => 1 # 3) 0) _ _); reflexivity.
Defined.

(** X12. At every level the input commands are still in the output, in
    their order, and all that is added are [LineTo] commands: the
    [MoveTo], [QuadraticTo], [CubicTo] and [ClosePath] commands of the
    output are those of the input, in the same order. *)
Theorem distortPath_keeps_commands (path : Path) (level : Q) (rnd : RandomSource) (n : nat) :
  let out := commands (fst (distortPath path level rnd n)) in
  sublist (commands path) out /\
  List.filter (fun q => negb (isLineTo q)) out =
  List.filter (fun q => negb (isLineTo q)) (commands path).
Proof.
  intros out. subst out.
  destruct (distortPath_cases path level rnd n) as [->|[_ [_ ->]]]; cbn [fst commands].
  - split; reflexivity.
  - split; [apply blocks_sublist|apply blocks_not_lines].
Qed.

(** X13. At every level the walk over the output ends where the walk
    over the input ends: the last point set by a command is unchanged. *)
Theorem distortPath_keeps_cursor (path : Path) (level : Q) (rnd : RandomSource) (n : nat) :
  cursor (commands (fst (distortPath path level rnd n))) = cursor (commands path).
Proof.
  destruct (distortPath_cases path level rnd n) as [->|[_ [_ ->]]]; cbn [fst commands].
  - reflexivity.
  - apply blocks_cursor.
Qed.

(** X14. A path without [LineTo], [QuadraticTo] and [CubicTo] commands,
    the empty path among them, comes back as it is at every level, and
    no random number is drawn for it. *)
Theorem distortPath_plain_path (path : Path) (level : Q) (rnd : RandomSource) (n : nat) :
  countSubdivided (commands path) = 0%nat ->
  distortPath path level rnd n = (path, n).
Proof.
  intros H.
  destruct (distortPath_cases path level rnd n) as [->|[_ [_ ->]]]; [reflexivity|].
  rewrite blocks_plain by exact H. rewrite H, Nat.mul_0_r, Nat.add_0_r.
  destruct path. reflexivity.
Qed.

Lemma distortPath_plain_path_witness :
  distortPath (mkPath [MoveTo 1 2; ClosePath]) 1 (fun _ => 1 # 3) 5 =
  (mkPath [MoveTo 1 2; ClosePath], 5%nat).
Proof.
  apply (distortPath_plain_path (mkPath [MoveTo 1 2; ClosePath]) 1 (fun _ => 1 # 3) 5).
  reflexivity.
Defined.

Lemma fraction_range (j extraPoints : Z) :
  (0 <= j < extraPoints)%Z ->
  0 < inject_Z (1 + j) / inject_Z (extraPoints + 1) /\
  inject_Z (1 + j) / inject_Z (extraPoints + 1) < 1.
Proof.
  intros H.
  assert (Hd : 0 < inject_Z (extraPoints + 1)).
  { change 0 with (inject_Z 0). rewrite <- Zlt_Qlt. lia. }
  split.
  - apply Qlt_shift_div_l; [exact Hd|].
    rewrite Qmult_0_l. change 0 with (inject_Z 0). rewrite <- Zlt_Qlt. lia.
  - apply Qlt_shift_div_r; [exact Hd|].
    rewrite Qmult_1_l. rewrite <- Zlt_Qlt. lia.
Qed.

Lemma between_ends (p t f : Q) :
  0 < f -> f < 1 ->
  Qmin p t <= p + (t - p) * f /\ p + (t - p) * f <= Qmax p t.
Proof.
  intros H0 H1.
  destruct (Qlt_le_dec p t) as [H|H].
  - rewrite (Q.min_l p t), (Q.max_r p t) by lra. split; nra.
  - rewrite (Q.min_r p t), (Q.max_l p t) by lra. split; nra.
Qed.

(** X15. The interior points of a subdivided segment stay near it: every
    point inserted in front of a [LineTo], [QuadraticTo] or [CubicTo]
    lies in the bounding box of the segment's two ends, widened on every
    side by [level * 3] for a [LineTo] and [level * 5] for a curve. *)
Theorem interior_points_in_box (path : Path) (level : Q) (rnd : RandomSource) (n : nat)
    (pre post : list PathCommand) (c : PathCommand) :
  (forall k, 0 <= rnd k /\ rnd k < 1) ->
  0 < level ->
  (0 < Math_round (level * MAX_EXTRA_POINTS))%Z ->
  commands path = pre ++ c :: post ->
  subdivided c = true ->
  let px := fst (cursor pre) in
  let py := snd (cursor pre) in
  let tx := fst (cursorAfter (cursor pre) c) in
  let ty := snd (cursorAfter (cursor pre) c) in
  let margin := level * jitterBound c in
  exists before ins after,
    commands (fst (distortPath path level rnd n)) = before ++ ins ++ c :: after /\
    length before =
      (length pre +
       Z.to_nat (Math_round (level * MAX_EXTRA_POINTS)) * countSubdivided pre)%nat /\
    length ins = Z.to_nat (Math_round (level * MAX_EXTRA_POINTS)) /\
    forall q, In q ins ->
      exists x y,
        q = LineTo x y /\
        Qmin px tx - margin <= x /\ x <= Qmax px tx + margin /\
        Qmin py ty - margin <= y /\ y <= Qmax py ty + margin.
Proof.
  intros Hr Hl He Hp Hc px py tx ty margin.
  rewrite distortPath_blocks by assumption.
  set (extraPoints := Math_round (level * MAX_EXTRA_POINTS)) in *.
  cbn [fst commands]. rewrite Hp, blocks_app. cbn [blocks].
  rewrite concat_app. cbn [concat]. unfold block at 1. rewrite Hc.
  fold (cursor pre). fold px py tx ty.
  rewrite <- !app_assoc. cbn [app].
  eexists _, _, _. split; [reflexivity|].
  split; [apply length_concat_blocks|].
  split; [rewrite length_map, length_seq; reflexivity|].
  intros q Hq. apply in_map_iff in Hq. destruct Hq as [j [<- Hj]].
  apply in_seq in Hj. unfold interiorPoint.
  eexists _, _. split; [reflexivity|].
  assert (Hf : jitterFactor c == 2 * jitterBound c /\ 0 < jitterBound c)
    by (destruct c; cbn; split; reflexivity).
  destruct Hf as [Hf Hb].
  destruct (fraction_range (Z.of_nat j) extraPoints ltac:(lia)) as [T0 T1].
  set (t := inject_Z (1 + Z.of_nat j) / inject_Z (extraPoints + 1)) in *.
  destruct (between_ends px tx t T0 T1) as [X0 X1].
  destruct (between_ends py ty t T0 T1) as [Y0 Y1].
  match goal with
  | |- context [(rnd ?a - (1 # 2)) * (level * jitterFactor c)] =>
      pose proof (jitter_range (rnd a) level (jitterFactor c) (jitterBound c)
                    (proj1 (Hr a)) (proj2 (Hr a)) Hl Hf Hb) as JX
  end.
  match goal with
  | |- context [(rnd (S ?a) - (1 # 2)) * (level * jitterFactor c)] =>
      pose proof (jitter_range (rnd (S a)) level (jitterFactor c) (jitterBound c)
                    (proj1 (Hr (S a))) (proj2 (Hr (S a))) Hl Hf Hb) as JY
  end.
  apply Qabs_Qle_condition in JX, JY. fold margin in JX, JY.
  repeat split; lra.
Qed.

Lemma interior_points_in_box_witness :
  exists before ins after,
    commands (fst (distortPath (mkPath [MoveTo 1 1; QuadraticTo 2 3 7 4; ClosePath])
                     (1 # 5) (fun k => if Nat.even k then 1 # 4 else 9 # 10) 0)) =
      before ++ ins ++ QuadraticTo 2 3 7 4 :: after /\
    length before = 1%nat /\
    length ins = 2%nat /\
    forall q, In q ins ->
      exists x y,
        q = LineTo x y /\
        Qmin 1 7 - (1 # 5) * 5 <= x /\ x <= Qmax 1 7 + (1 # 5) * 5 /\
        Qmin 1 4 - (1 # 5) * 5 <= y /\ y <= Qmax 1 4 + (1 # 5) * 5.
Proof.
  apply (interior_points_in_box
           (mkPath [MoveTo 1 1; QuadraticTo 2 3 7 4; ClosePath])
           (1 # 5) (fun k => if Nat.even k then 1 # 4 else 9 # 10) 0
           [MoveTo 1 1] [ClosePath] (QuadraticTo 2 3 7 4)).
  - intros k. destruct (Nat.even k); split; try reflexivity; discriminate.
  - reflexivity.
  - reflexivity.
  - reflexivity.
  - reflexivity.
Defined.

(** * Further properties of the text layout *)

Lemma append_assoc3 (s1 s2 s3 : string) : (s1 +:+ s2) +:+ s3 = s1 +:+ s2 +:+ s3.
Proof.
  induction s1 as [|c s1 IH]; [reflexivity|].
  rewrite !append_cons, IH. reflexivity.
Qed.

Lemma truthy_append (s1 s2 : string) : truthy s1 = true -> truthy (s1 +:+ s2) = true.
Proof. destruct s1; [discriminate|reflexivity]. Qed.

Lemma joined_snoc (l : list string) (a : string) :
  l <> [] -> joined (l ++ [a]) = joined l +:+ " " +:+ a.
Proof.
  induction l as [|x l IH]; intros Hne; [contradiction|].
  destruct l as [|y l]; [reflexivity|].
  change (x +:+ " " +:+ joined ((y :: l) ++ [a]) =
          (x +:+ " " +:+ joined (y :: l)) +:+ " " +:+ a).
  rewrite IH by discriminate. rewrite !append_assoc3. reflexivity.
Qed.

Lemma joined_extend (lines : list string) (cur w : string) :
  joined (lines ++ [cur +:+ " " +:+ w]) = joined (lines ++ [cur]) +:+ " " +:+ w.
Proof.
  destruct lines as [|x lines]; [reflexivity|].
  rewrite !joined_snoc by discriminate. rewrite !append_assoc3. reflexivity.
Qed.

Section LayoutFacts.

Variables (maxWidth : Q) (font : Font) (scale letterSpacing : Q).

Let width (s : string) : Q := measureLineWidth s font scale letterSpacing.
Let step := layoutStep maxWidth font scale letterSpacing.

(** A line that is not empty and either fits or is one of [words]. *)
Let sound (words : list string) (l : string) : Prop :=
  l <> EmptyString /\ (width l <= maxWidth \/ In l words).

Lemma step_cases (lines : list string) (cur word : string) :
  (truthy cur = true /\ maxWidth < width (cur +:+ " " +:+ word) /\
   step (lines, cur) word = (lines ++ [cur], word)) \/
  (truthy cur = true /\ width (cur +:+ " " +:+ word) <= maxWidth /\
   step (lines, cur) word = (lines, cur +:+ " " +:+ word)) \/
  (truthy cur = false /\ step (lines, cur) word = (lines, word)).
Proof.
  unfold step, layoutStep. destruct (truthy cur) eqn:Hc.
  - fold (width (cur +:+ " " +:+ word)).
    destruct (Qle_bool (width (cur +:+ " " +:+ word)) maxWidth) eqn:E.
    + right. left. apply Qle_bool_iff in E. cbn [negb andb]. tauto.
    + left. cbn [negb andb]. split; [reflexivity|]. split; [|reflexivity].
      apply Qnot_le_lt. intros H. apply Qle_bool_iff in H. congruence.
  - right. right. rewrite andb_false_r. tauto.
Qed.

Lemma step_sound (words : list string) (st : list string * string) (word : string) :
  In word words ->
  Forall (sound words) (fst st) ->
  (snd st = EmptyString \/ sound words (snd st)) ->
  Forall (sound words) (fst (step st word)) /\
  (snd (step st word) = EmptyString \/ sound words (snd (step st word))).
Proof.
  intros Hw Hl Hc. destruct st as [lines cur]. cbn [fst snd] in *.
  assert (Hword : word = EmptyString \/ sound words word).
  { destruct word; [left; reflexivity|right]. split; [discriminate|right; exact Hw]. }
  destruct (step_cases lines cur word) as [[Ht [_ ->]]|[[Ht [Hf ->]]|[Ht ->]]];
    cbn [fst snd].
  - split; [|exact Hword].
    apply Forall_app. split; [exact Hl|]. constructor; [|constructor].
    destruct Hc as [->|Hc]; [discriminate|exact Hc].
  - split; [exact Hl|]. right. split; [|left; exact Hf].
    apply truthy_iff, truthy_append, Ht.
  - split; [exact Hl|exact Hword].
Qed.

Lemma fold_sound (words ws : list string) :
  (forall w, In w ws -> In w words) ->
  forall st,
    Forall (sound words) (fst st) ->
    (snd st = EmptyString \/ sound words (snd st)) ->
    Forall (sound words) (fst (fold_left step ws st)) /\
    (snd (fold_left step ws st) = EmptyString \/
     sound words (snd (fold_left step ws st))).
Proof.
  induction ws as [|w ws IH]; intros Hin st Hl Hc; cbn [fold_left]; [tauto|].
  destruct (step_sound words st w (Hin w (or_introl eq_refl)) Hl Hc) as [Hl' Hc'].
  apply IH; [intros w' Hw'; apply Hin; right; exact Hw'|exact Hl'|exact Hc'].
Qed.

Lemma fold_blank (ws : list string) :
  Forall (fun w => w = EmptyString) ws ->
  fold_left step ws ([], EmptyString) = ([], EmptyString).
Proof.
  induction ws as [|w ws IH]; intros H; cbn [fold_left]; [reflexivity|].
  inversion H as [|? ? Hw Hws]; subst.
  destruct (step_cases [] EmptyString EmptyString) as [[Ht _]|[[Ht _]|[_ ->]]];
    [discriminate|discriminate|exact (IH Hws)].
Qed.

Lemma fold_count (ws : list string) :
  forall st : list string * string,
    (length (fst (fold_left step ws st)) +
     (if truthy (snd (fold_left step ws st)) then 1 else 0) <=
     length (fst st) + (if truthy (snd st) then 1 else 0) + length ws)%nat.
Proof.
  induction ws as [|w ws IH]; intros st; cbn [fold_left length]; [lia|].
  specialize (IH (step st w)). destruct st as [lines cur].
  destruct (step_cases lines cur w) as [[Ht [_ E]]|[[Ht [_ E]]|[Ht E]]];
    rewrite E in *; cbn [fst snd] in *; rewrite ?length_app in *; cbn [length] in *;
    rewrite ?Ht; destruct (truthy w); destruct (truthy (cur +:+ " " +:+ w)); lia.
Qed.

Lemma fold_joined (ws : list string) :
  Forall (fun w => w <> EmptyString) ws ->
  forall (st : list string * string) (done : list string),
    done <> [] ->
    truthy (snd st) = true ->
    joined (fst st ++ [snd st]) = joined done ->
    truthy (snd (fold_left step ws st)) = true /\
    joined (fst (fold_left step ws st) ++ [snd (fold_left step ws st)]) =
    joined (done ++ ws).
Proof.
  induction ws as [|w ws IH]; intros Hw st done Hd Ht Hj; cbn [fold_left].
  - rewrite app_nil_r. tauto.
  - inversion Hw as [|? ? Hw1 Hws]; subst. apply truthy_iff in Hw1.
    replace (done ++ w :: ws) with ((done ++ [w]) ++ ws)
      by (rewrite <- app_assoc; reflexivity).
    destruct st as [lines cur]. cbn [fst snd] in *.
    apply IH; [exact Hws|destruct done; discriminate| |].
    + destruct (step_cases lines cur w) as [[_ [_ ->]]|[[_ [_ ->]]|[Hf _]]];
        cbn [snd]; [exact Hw1|apply truthy_append, Ht|congruence].
    + rewrite (joined_snoc done) by exact Hd.
      destruct (step_cases lines cur w) as [[_ [_ ->]]|[[_ [_ ->]]|[Hf _]]];
        cbn [fst snd]; [|rewrite joined_extend, Hj; reflexivity|congruence].
      rewrite joined_snoc by (destruct lines; discriminate).
      rewrite Hj. reflexivity.
Qed.

End LayoutFacts.

Lemma splitRuns_blank (text : string) :
  Forall (fun c => isSpace c = true) (list_ascii_of_string text) ->
  forall inRun : bool,
    Forall (fun w => w = EmptyString) (splitRuns text EmptyString inRun).
Proof.
  induction text as [|c text IH]; intros H inRun; cbn [splitRuns].
  - repeat constructor.
  - cbn [list_ascii_of_string] in H. inversion H as [|? ? Hc Ht]; subst.
    rewrite Hc. destruct inRun; [apply IH, Ht|].
    constructor; [reflexivity|apply IH, Ht].
Qed.

(** X16. In the layout of any text no line is empty, and every line
    either fits into [maxWidth] or is a single word of the text: only a
    word on its own overflows. *)
Theorem layout_lines_sound (text : string) (maxWidth : Q) (font : Font)
    (scale letterSpacing : Q) (line : string) :
  In line (layoutTextIntoLines text maxWidth font scale letterSpacing) ->
  line <> EmptyString /\
  (measureLineWidth line font scale letterSpacing <= maxWidth \/
   In line (split_ws text)).
Proof.
  unfold layoutTextIntoLines.
  destruct (fold_sound maxWidth font scale letterSpacing (split_ws text) (split_ws text)
              (fun w H => H) ([], EmptyString)) as [Hl Hc];
    [constructor|left; reflexivity|].
  destruct (fold_left _ _ _) as [lines cur]. cbn [fst snd] in *.
  rewrite List.Forall_forall in Hl. intros Hin.
  destruct (truthy cur) eqn:Ht; [|apply Hl, Hin].
  apply in_app_or in Hin. destruct Hin as [Hin|[<-|[]]]; [apply Hl, Hin|].
  destruct Hc as [->|Hc]; [discriminate|exact Hc].
Qed.

Lemma layout_lines_sound_witness :
  "AB"%string <> EmptyString /\
  (measureLineWidth "AB" sampleFont (100 / 1000) 2 <= 100 \/
   In "AB"%string (split_ws "A  AB A")).
Proof.
  apply (layout_lines_sound "A  AB A" 100 sampleFont (100 / 1000) 2 "AB").
  vm_compute. tauto.
Defined.

(** X17. A text that is empty or all white space gives no line at all,
    and no text gives more lines than it has words. *)
Theorem layout_blank_and_count (text : string) (maxWidth : Q) (font : Font)
    (scale letterSpacing : Q) :
  (Forall (fun c => isSpace c = true) (list_ascii_of_string text) ->
   layoutTextIntoLines text maxWidth font scale letterSpacing = []) /\
  (length (layoutTextIntoLines text maxWidth font scale letterSpacing) <=
   length (split_ws text))%nat.
Proof.
  split.
  - intros H. unfold layoutTextIntoLines, split_ws.
    rewrite fold_blank by (apply splitRuns_blank, H). reflexivity.
  - unfold layoutTextIntoLines.
    pose proof (fold_count maxWidth font scale letterSpacing (split_ws text)
                  ([], EmptyString)) as H.
    destruct (fold_left _ _ _) as [lines cur]. cbn [fst snd truthy length] in H.
    destruct (truthy cur); [rewrite length_app; cbn [length]|]; lia.
Qed.

Lemma layout_blank_and_count_witness :
  layoutTextIntoLines "   " 100 sampleFont (100 / 1000) 2 = [].
Proof.
  apply (proj1 (layout_blank_and_count "   " 100 sampleFont (100 / 1000) 2)).
  repeat constructor.
Defined.

Lemma layout_joined (text : string) (maxWidth : Q) (font : Font)
    (scale letterSpacing : Q) :
  Forall (fun w => w <> EmptyString) (split_ws text) ->
  joined (layoutTextIntoLines text maxWidth font scale letterSpacing) =
  joined (split_ws text).
Proof.
  intros Hw. unfold layoutTextIntoLines.
  destruct (split_ws text) as [|w ws]; [reflexivity|].
  inversion Hw as [|? ? Hw1 Hws]; subst. cbn [fold_left].
  assert (E : layoutStep maxWidth font scale letterSpacing ([], EmptyString) w = ([], w)).
  { destruct (step_cases maxWidth font scale letterSpacing [] EmptyString w)
      as [[Ht _]|[[Ht _]|[_ E]]]; [discriminate|discriminate|exact E]. }
  rewrite E.
  destruct (fold_joined maxWidth font scale letterSpacing ws Hws ([], w) [w])
    as [Ht Hj]; [discriminate|apply truthy_iff, Hw1|reflexivity|].
  destruct (fold_left _ _ _) as [lines cur]. cbn [fst snd] in *.
  rewrite Ht. exact Hj.
Qed.

(** X18. When no word of the text is empty, which is the case for a
    trimmed text, the layout keeps every word, in order: the lines joined
    by single spaces are the words joined by single spaces. *)
Theorem layout_keeps_words (text : string) (maxWidth : Q) (font : Font)
    (scale letterSpacing : Q) :
  Forall (fun w => w <> EmptyString) (split_ws text) ->
  joined (layoutTextIntoLines text maxWidth font scale letterSpacing) =
  joined (split_ws text).
Proof. apply layout_joined. Qed.

Lemma layout_keeps_words_witness :
  joined (layoutTextIntoLines "A  AB A" 100 sampleFont (100 / 1000) 2) =
  joined (split_ws "A  AB A").
Proof.
  apply (layout_keeps_words "A  AB A" 100 sampleFont (100 / 1000) 2).
  repeat constructor; discriminate.
Defined.

Lemma trimStart_starts (s : string) : startsClean (trimStart s) = true.
Proof.
  induction s as [|c s IH]; [reflexivity|]. cbn [trimStart].
  destruct (isSpace c) eqn:E; [exact IH|]. cbn [startsClean]. rewrite E. reflexivity.
Qed.

Lemma trimEnd_ends (s : string) : endsClean (trimEnd s) = true.
Proof.
  induction s as [|c s IH]; [reflexivity|]. cbn [trimEnd].
  destruct (trimEnd s) as [|c' s'] eqn:E.
  - cbn [truthy negb]. rewrite andb_true_r.
    destruct (isSpace c) eqn:Ec; [reflexivity|]. cbn [endsClean]. rewrite Ec. reflexivity.
  - cbn [truthy negb]. rewrite andb_false_r. exact IH.
Qed.

Lemma trimEnd_starts (s : string) :
  startsClean s = true -> startsClean (trimEnd s) = true.
Proof.
  destruct s as [|c s]; [reflexivity|]. cbn [startsClean trimEnd]. intros H.
  apply negb_true_iff in H. rewrite H. cbn [andb startsClean]. rewrite H. reflexivity.
Qed.

Lemma endsClean_tail (c : ascii) (rest : string) :
  endsClean (String c rest) = true ->
  endsClean rest = true /\ (isSpace c = true -> truthy rest = true).
Proof.
  cbn [endsClean]. destruct rest as [|c' rest'].
  - intros H. apply negb_true_iff in H. split; [reflexivity|congruence].
  - intros H. split; [exact H|reflexivity].
Qed.

Lemma splitRuns_words (text : string) :
  forall (word : string) (inRun : bool),
    Forall (fun c => isSpace c = false) (list_ascii_of_string word) ->
    endsClean text = true ->
    (truthy word = true \/
     (truthy text = true /\ (inRun = false -> startsClean text = true))) ->
    Forall isWord (splitRuns text word inRun).
Proof.
  induction text as [|c rest IH]; intros word inRun Hw He Hc; cbn [splitRuns].
  - constructor; [|constructor]. split; [|exact Hw].
    destruct Hc as [Hc|[Hc _]]; [apply truthy_iff, Hc|discriminate].
  - destruct (endsClean_tail c rest He) as [He' Hrest].
    destruct (isSpace c) eqn:Ec.
    + specialize (Hrest eq_refl). destruct inRun.
      * apply IH; [exact Hw|exact He'|]. right. split; [exact Hrest|discriminate].
      * assert (Ht : truthy word = true).
        { destruct Hc as [Hc|[_ Hc]]; [exact Hc|].
          specialize (Hc eq_refl). cbn [startsClean] in Hc. rewrite Ec in Hc.
          discriminate. }
        constructor; [split; [apply truthy_iff, Ht|exact Hw]|].
        apply IH; [constructor|exact He'|].
        right. split; [exact Hrest|discriminate].
    + apply IH; [|exact He'|].
      * rewrite list_ascii_of_string_app. apply Forall_app. split; [exact Hw|].
        cbn [list_ascii_of_string]. constructor; [exact Ec|constructor].
      * left. destruct word; reflexivity.
Qed.

Lemma split_trim_words (s : string) :
  truthy (trim s) = true -> Forall isWord (split_ws (trim s)).
Proof.
  intros Ht. unfold split_ws. apply splitRuns_words.
  - constructor.
  - apply trimEnd_ends.
  - right. split; [exact Ht|]. intros _. apply trimEnd_starts, trimStart_starts.
Qed.

Lemma renderText_words (pg : Page) : Forall isWord (split_ws (renderText pg)).
Proof.
  unfold renderText. destruct (truthy (trim (textInput_value pg))) eqn:Ht.
  - apply split_trim_words, Ht.
  - repeat constructor; discriminate.
Qed.

(** X19. The text [drawOutput] lays out is the trimmed input, or the
    placeholder when that is empty; split at white space it consists of
    proper words only (non-empty, free of white space), so its layout
    keeps every word in order, whatever the font and the sizes. *)
Theorem drawOutput_text_words (pg : Page) (f : Font) :
  (forall s, truthy (trim s) = true -> Forall isWord (split_ws (trim s))) /\
  Forall isWord (split_ws (renderText pg)) /\
  joined (renderLines pg f) = joined (split_ws (renderText pg)).
Proof.
  split; [exact split_trim_words|]. split; [apply renderText_words|].
  unfold renderLines. apply layout_joined.
  pose proof (renderText_words pg) as H.
  rewrite List.Forall_forall in H |- *. intros w Hw. apply (H w Hw).
Qed.

Lemma drawOutput_text_words_witness :
  Forall isWord (split_ws (trim "  free  press ")).
Proof.
  apply (proj1 (drawOutput_text_words samplePage sampleFont) "  free  press ").
  reflexivity.
Defined.

(** * Further properties of the rendering *)

Lemma glyphs_draws (f : Font) (fontSize scale letterSpacing level y : Q)
    (rnd : RandomSource) (chars : list ascii) :
  forall st : Q * list Effect * nat,
    exists draws,
      snd (fst (fold_left (glyphStep f fontSize scale letterSpacing level y rnd)
                  chars st)) = snd (fst st) ++ draws /\
      forallb isDraw draws = true /\
      length draws = length chars.
Proof.
  induction chars as [|ch chars IH]; intros st; cbn [fold_left].
  - exists []. rewrite app_nil_r. repeat split.
  - destruct (IH (glyphStep f fontSize scale letterSpacing level y rnd st ch))
      as [draws [-> [Hd Hn]]].
    destruct st as [[x out] k]. unfold glyphStep.
    destruct (distortPath _ _ _ _) as [p k']. cbn [fst snd].
    rewrite <- app_assoc. eexists. split; [reflexivity|].
    cbn [app forallb isDraw length andb]. split; [exact Hd|]. rewrite Hn. reflexivity.
Qed.

Lemma lines_draws (f : Font) (width fontSize scale letterSpacing : Q)
    (lineHeightFactor level : Q) (rnd : RandomSource) (lines : list string) :
  forall st : Q * list Effect * nat,
    exists draws,
      snd (fst (fold_left
                  (lineStep f width fontSize scale letterSpacing lineHeightFactor
                     level rnd) lines st)) = snd (fst st) ++ draws /\
      forallb isDraw draws = true /\
      length draws = charCount lines.
Proof.
  unfold charCount.
  induction lines as [|line lines IH]; intros st; cbn [fold_left flat_map].
  - exists []. rewrite app_nil_r. repeat split.
  - destruct (IH (lineStep f width fontSize scale letterSpacing lineHeightFactor
                    level rnd st line)) as [draws [-> [Hd Hn]]].
    destruct st as [[y out] k]. unfold lineStep.
    match goal with
    | |- context [fold_left ?g ?l ?s] =>
        destruct (glyphs_draws f fontSize scale letterSpacing level y rnd l s)
          as [draws' [E [Hd' Hn']]];
        destruct (fold_left g l s) as [[x' out'] k']
    end.
    cbn [fst snd] in *. subst out'.
    rewrite <- app_assoc. eexists. split; [reflexivity|].
    rewrite forallb_app, Hd, Hd', !length_app, Hn, Hn'. split; reflexivity.
Qed.

Lemma drawOutput_shape (pg : Page) (f : Font) (rnd : RandomSource) (n : nat) :
  truthy (selectedCountry pg) = true ->
  font pg = Some f ->
  exists draws,
    fst (drawOutput pg rnd n) =
    [ SetCurrentScore (shownScore pg);
      PanelCountry (selectedCountry pg);
      PanelYear (selectedYear pg);
      PanelScore (shownScore pg);
      Background (scoreToColor (shownScore pg));
      Blur (scoreToDistortion (shownScore pg) * MAX_BLUR_PX);
      ClearRect 0 0 (inject_Z (canvas_width pg)) (inject_Z (canvas_height pg));
      FillStyle "#000000";
      Save ] ++ draws ++ [Restore] /\
    forallb isDraw draws = true /\
    length draws = charCount (renderLines pg f).
Proof.
  intros Hc Hf. unfold drawOutput. fold (selectedCountry pg). fold (selectedYear pg).
  rewrite Hc, Hf. cbn [negb]. fold (shownScore pg).
  fold (renderText pg). fold (renderFontSize pg). fold (renderLetterSpacing pg).
  fold (renderScale pg f). fold (renderLines pg f).
  match goal with
  | |- context [fold_left (lineStep ?f ?w ?fs ?sc ?ls ?lh ?lv ?r) ?l ?s] =>
      destruct (lines_draws f w fs sc ls lh lv r l s) as [draws [E [Hd Hn]]];
      destruct (fold_left (lineStep f w fs sc ls lh lv r) l s) as [[y' out'] k']
  end.
  cbn [fst snd] in *. subst out'.
  exists draws. split; [|split; [exact Hd|exact Hn]].
  rewrite <- !app_assoc. reflexivity.
Qed.

Lemma filter_draws (p : Effect -> bool) (draws : list Effect) :
  (forall q, p (Draw q) = false) ->
  forallb isDraw draws = true ->
  List.filter p draws = [].
Proof.
  intros Hp. induction draws as [|e draws IH]; [reflexivity|].
  cbn [forallb List.filter]. intros H. apply andb_true_iff in H. destruct H as [He Hd].
  destruct e; try discriminate. rewrite Hp. apply IH, Hd.
Qed.

(** X21. With a country selected and a font loaded, [drawOutput] writes
    the score, the three panel texts, the background and the blur, clears
    the canvas, sets the fill style, saves the context, draws one outline
    for every character of the laid-out lines and nothing else, and
    restores the context. *)
Theorem drawOutput_with_font (pg : Page) (f : Font) (rnd : RandomSource) (n : nat) :
  truthy (selectedCountry pg) = true ->
  font pg = Some f ->
  exists draws,
    fst (drawOutput pg rnd n) =
    [ SetCurrentScore (shownScore pg);
      PanelCountry (selectedCountry pg);
      PanelYear (selectedYear pg);
      PanelScore (shownScore pg);
      Background (scoreToColor (shownScore pg));
      Blur (scoreToDistortion (shownScore pg) * MAX_BLUR_PX);
      ClearRect 0 0 (inject_Z (canvas_width pg)) (inject_Z (canvas_height pg));
      FillStyle "#000000";
      Save ] ++ draws ++ [Restore] /\
    forallb isDraw draws = true /\
    length draws = charCount (renderLines pg f).
Proof. apply drawOutput_shape. Qed.

Lemma drawOutput_with_font_witness :
  exists draws,
    fst (drawOutput (setCurrentCountry samplePage (Some "Chile"%string))
           (fun _ => 1 # 3) 0) =
    [ SetCurrentScore (shownScore (setCurrentCountry samplePage (Some "Chile"%string)));
      PanelCountry (selectedCountry (setCurrentCountry samplePage (Some "Chile"%string)));
      PanelYear (selectedYear (setCurrentCountry samplePage (Some "Chile"%string)));
      PanelScore (shownScore (setCurrentCountry samplePage (Some "Chile"%string)));
      Background
        (scoreToColor (shownScore (setCurrentCountry samplePage (Some "Chile"%string))));
      Blur (scoreToDistortion
              (shownScore (setCurrentCountry samplePage (Some "Chile"%string))) *
            MAX_BLUR_PX);
      ClearRect 0 0
        (inject_Z (canvas_width (setCurrentCountry samplePage (Some "Chile"%string))))
        (inject_Z (canvas_height (setCurrentCountry samplePage (Some "Chile"%string))));
      FillStyle "#000000";
      Save ] ++ draws ++ [Restore] /\
    forallb isDraw draws = true /\
    length draws =
      charCount (renderLines (setCurrentCountry samplePage (Some "Chile"%string))
                   sampleFont).
Proof.
  refine (drawOutput_with_font (setCurrentCountry samplePage (Some "Chile"%string))
            sampleFont (fun _ => 1 # 3) 0 _ _); reflexivity.
Defined.

(** X22. [drawOutput] writes nothing exactly when no country is
    selected, and then it draws no random number either. *)
Theorem drawOutput_nothing_iff (pg : Page) (rnd : RandomSource) (n : nat) :
  (fst (drawOutput pg rnd n) = [] <-> truthy (selectedCountry pg) = false) /\
  (truthy (selectedCountry pg) = false -> drawOutput pg rnd n = ([], n)).
Proof.
  assert (H : truthy (selectedCountry pg) = false -> drawOutput pg rnd n = ([], n)).
  { intros Hc. unfold drawOutput. fold (selectedCountry pg). rewrite Hc. reflexivity. }
  split; [|exact H]. split.
  - intros E. destruct (truthy (selectedCountry pg)) eqn:Hc; [|reflexivity].
    destruct (drawOutput_head pg rnd n Hc) as [_ [extra E']].
    rewrite E' in E. discriminate.
  - intros Hc. rewrite (H Hc). reflexivity.
Qed.

Lemma drawOutput_nothing_iff_witness :
  drawOutput (mkPage None ∅ None None "free press" "" "" "120" "0" "120" 800 600)
    (fun _ => 1 # 3) 4 = ([], 4%nat).
Proof.
  apply (proj2 (drawOutput_nothing_iff
                  (mkPage None ∅ None None "free press" "" "" "120" "0" "120" 800 600)
                  (fun _ => 1 # 3) 4)).
  reflexivity.
Defined.

(** X23. Every render with a country selected, font or no font, sets the
    background exactly once and the blur exactly once; the score shown is
    within 0..1 and the blur within 0..[MAX_BLUR_PX]. *)
Theorem drawOutput_one_background_blur (pg : Page) (rnd : RandomSource) (n : nat) :
  truthy (selectedCountry pg) = true ->
  let out := fst (drawOutput pg rnd n) in
  List.filter isBackground out = [Background (scoreToColor (shownScore pg))] /\
  List.filter isBlur out = [Blur (scoreToDistortion (shownScore pg) * MAX_BLUR_PX)] /\
  0 <= shownScore pg <= 1 /\
  0 <= scoreToDistortion (shownScore pg) * MAX_BLUR_PX <= MAX_BLUR_PX.
Proof.
  intros Hc out. subst out.
  assert (Hs : 0 <= shownScore pg <= 1) by apply clamp_range.
  assert (Hb : 0 <= scoreToDistortion (shownScore pg) * MAX_BLUR_PX <= MAX_BLUR_PX).
  { unfold scoreToDistortion, MAX_BLUR_PX.
    pose proof (clamp_range (shownScore pg)). lra. }
  destruct (font pg) as [f|] eqn:Hf.
  - destruct (drawOutput_shape pg f rnd n Hc Hf) as [draws [-> [Hd _]]].
    rewrite !List.filter_app.
    rewrite (filter_draws isBackground draws) by (try reflexivity; exact Hd).
    rewrite (filter_draws isBlur draws) by (try reflexivity; exact Hd).
    cbn. tauto.
  - destruct (drawOutput_head pg rnd n Hc) as [H _].
    rewrite (H Hf). fold (shownScore pg). cbn. tauto.
Qed.

Lemma drawOutput_one_background_blur_witness :
  0 <= shownScore (setCurrentCountry samplePage (Some "Chile"%string)) <= 1.
Proof.
  refine (proj1 (proj2 (proj2 (drawOutput_one_background_blur
                                 (setCurrentCountry samplePage (Some "Chile"%string))
                                 (fun _ => 1 # 3) 0 _)))).
  reflexivity.
Defined.


Section Clean.

Variables (f : Font) (width fontSize scale letterSpacing lineHeightFactor level : Q).
Variables (rnd rnd' : RandomSource).

Hypothesis off :
  forall (path : Path) (r : RandomSource) (k : nat),
    distortPath path level r k = (path, k).



End Clean.



Lemma Math_round_below_half (v : Q) : v < 1 # 2 -> (Math_round v <= 0)%Z.
Proof.
  intros H. unfold Math_round.
  pose proof (Qfloor_le (v + (1 # 2))) as Hf.
  assert (Hlt : inject_Z (Qfloor (v + (1 # 2))) < inject_Z 1)
    by (change (inject_Z 1) with 1; lra).
  rewrite <- Zlt_Qlt in Hlt. lia.
Qed.

(** X25. Whatever the score, the number of interior points per segment
    that its distortion level asks for is between 0 and
    [MAX_EXTRA_POINTS]; it is [MAX_EXTRA_POINTS] for a score of 0 or
    less and 0 for a score above 0.95. *)
Theorem extraPoints_range (score : Q) :
  let extraPoints := Math_round (scoreToDistortion score * MAX_EXTRA_POINTS) in
  (0 <= extraPoints <= 10)%Z /\
  (score <= 0 -> extraPoints = 10%Z) /\
  (19 # 20 < score -> extraPoints = 0%Z).
Proof.
  intros extraPoints. subst extraPoints. unfold scoreToDistortion, MAX_EXTRA_POINTS.
  pose proof (clamp_range score) as Hr.
  pose proof (clamp_max_min score) as E.
  set (s := Math_max 0 (Math_min 1 score)) in *.
  assert (Hlo : (Math_round 0 <= Math_round ((1 - s) * 10))%Z)
    by (apply Math_round_mono; lra).
  assert (Hhi : (Math_round ((1 - s) * 10) <= Math_round 10)%Z)
    by (apply Math_round_mono; lra).
  change (Math_round 0) with 0%Z in Hlo. change (Math_round 10) with 10%Z in Hhi.
  split; [lia|]. split.
  - intros H0.
    assert (Hs : s == 0).
    { rewrite E. unfold clamp. destruct (Qlt_le_dec score 0); [reflexivity|].
      destruct (Qlt_le_dec 1 score); lra. }
    assert (H : (Math_round 10 <= Math_round ((1 - s) * 10))%Z)
      by (apply Math_round_mono; lra).
    change (Math_round 10) with 10%Z in H. lia.
  - intros H1.
    assert (Hs : 19 # 20 < s).
    { rewrite E. unfold clamp. destruct (Qlt_le_dec score 0); [lra|].
      destruct (Qlt_le_dec 1 score); lra. }
    assert (H : (Math_round ((1 - s) * 10) <= 0)%Z)
      by (apply Math_round_below_half; lra).
    lia.
Qed.

Lemma extraPoints_range_witness :
  Math_round (scoreToDistortion (- (3 # 2)) * MAX_EXTRA_POINTS) = 10%Z.
Proof.
  refine (proj1 (proj2 (extraPoints_range (- (3 # 2)))) _).
  vm_compute. discriminate.
Defined.
